(** * Indexed: a promise wrapper around IndexedDB

    A shallow embedding of [src/index.js].  The wrapper itself is a few
    dozen lines of callback plumbing; what it plumbs is the browser's
    storage engine.  The engine is modelled only as far as the wrapper
    observes it: an object store is a key-ordered list of records, a request
    is answered by exactly one success or error event, and a cursor walks
    the keys of a range in order.

    Conventions of the embedding:
    - JavaScript values are the primitives of [jsval]; numbers are the
      integer-valued ones (a fractional number never equals the integer
      record counter, which is the only place the code does arithmetic);
    - a promise is its final state, [promise];
    - the callbacks a caller attaches to the [events] object of a stream are
      recorded as the flags of [handlers] (attached before the first answer
      of the engine and left in place), and every call the code makes to
      one of them, or to the process-wide hook [Indexed.onerror], is logged
      as an [effect]. *)

From Stdlib Require Import ZArith List String Ascii Bool Lia.
Import ListNotations.
Local Open Scope string_scope.
Local Open Scope list_scope.

(** ** JavaScript values *)

Inductive jsval : Type :=
| JUndefined
| JNull
| JBool (b : bool)
| JNum (n : Z)
| JNaN
| JStr (s : string).

(** ToBoolean. *)
Definition truthy (v : jsval) : bool :=
  match v with
  | JUndefined | JNull | JNaN => false
  | JBool b => b
  | JNum n => negb (n =? 0)%Z
  | JStr s => negb (s =? "")%string
  end.

(** [a || b]: the first operand when it is truthy, the second otherwise. *)
Definition js_or (a b : jsval) : jsval := if truthy a then a else b.

(** [typeof v !== 'undefined']. *)
Definition is_defined (v : jsval) : bool :=
  match v with JUndefined => false | _ => true end.

(** [a === b] on primitives ([NaN] is not equal to itself). *)
Definition strict_eq (a b : jsval) : bool :=
  match a, b with
  | JUndefined, JUndefined | JNull, JNull => true
  | JBool x, JBool y => Bool.eqb x y
  | JNum x, JNum y => (x =? y)%Z
  | JStr x, JStr y => (x =? y)%string
  | _, _ => false
  end.

(** SameValueZero, the key equality of a JavaScript [Map]. *)
Definition same_value_zero (a b : jsval) : bool :=
  match a, b with
  | JNaN, JNaN => true
  | _, _ => strict_eq a b
  end.

(** ** The options object of [read] and [readAll]

    An absent property reads as [JUndefined]. *)

Record options : Type := {
  o_lt : jsval;
  o_lte : jsval;
  o_gt : jsval;
  o_gte : jsval;
  o_limit : jsval;
  o_reverse : jsval
}.

(** The default [opts = {}]. *)
Definition no_options : options :=
  {| o_lt := JUndefined; o_lte := JUndefined; o_gt := JUndefined;
     o_gte := JUndefined; o_limit := JUndefined; o_reverse := JUndefined |}.

(** ** getRange

    The value [getRange] returns is the call it makes on
    [window.IDBKeyRange], arguments in positional order; falling off the end
    of the function returns [undefined], here [None]. *)

Inductive range_call : Type :=
| Bound (lower upper : jsval) (lowerOpen upperOpen : bool)
| UpperBound (upper : jsval) (open : bool)
| LowerBound (lower : jsval) (open : bool).

Definition getRange (o : options) : option range_call :=
  let exLower := is_defined (o_lt o) in
  let exUpper := is_defined (o_gt o) in
  if truthy (js_or (o_lte o) (o_lt o)) && truthy (js_or (o_gte o) (o_gt o)) then
    Some (Bound (js_or (o_gte o) (o_gt o)) (js_or (o_lte o) (o_lt o)) exLower exUpper)
  else if truthy (js_or (o_lte o) (o_lt o)) then
    Some (UpperBound (js_or (o_lte o) (o_lt o)) exLower)
  else if truthy (js_or (o_gte o) (o_gt o)) then
    Some (LowerBound (js_or (o_gte o) (o_gt o)) exUpper)
  else None.

(** ** The storage engine, as the wrapper sees it *)

(** Valid keys are numbers and strings; the engine orders every number
    before every string, numbers by value and strings by code unit. *)
Definition valid_key (v : jsval) : bool :=
  match v with JNum _ | JStr _ => true | _ => false end.

Definition key_compare (a b : jsval) : comparison :=
  match a, b with
  | JNum x, JNum y => (x ?= y)%Z
  | JNum _, JStr _ => Lt
  | JStr _, JNum _ => Gt
  | JStr x, JStr y => String.compare x y
  | _, _ => Eq
  end.

Inductive error : Type :=
| EngineError (code : nat)   (* [event.target] of a failed request or transaction *)
| NotFound                   (* [new Error('Not Found')] *)
| NotFoundError              (* thrown by [db.transaction]: no such object store *)
| DataError                  (* thrown by the engine on an invalid key or range *)
| TypeError.                 (* a property read on [undefined] or [null] *)

(** An [IDBKeyRange]. *)
Record key_range : Type := {
  kr_lower : option jsval;
  kr_upper : option jsval;
  kr_lowerOpen : bool;
  kr_upperOpen : bool
}.

(** [IDBKeyRange.bound], [upperBound] and [lowerBound] throw [DataError] on
    an invalid key, and [bound] on an empty interval. *)
Definition IDBKeyRange_bound (lower upper : jsval) (lowerOpen upperOpen : bool)
  : error + key_range :=
  if valid_key lower && valid_key upper then
    match key_compare lower upper with
    | Gt => inl DataError
    | Eq => if lowerOpen || upperOpen then inl DataError
            else inr {| kr_lower := Some lower; kr_upper := Some upper;
                        kr_lowerOpen := lowerOpen; kr_upperOpen := upperOpen |}
    | Lt => inr {| kr_lower := Some lower; kr_upper := Some upper;
                   kr_lowerOpen := lowerOpen; kr_upperOpen := upperOpen |}
    end
  else inl DataError.

Definition IDBKeyRange_upperBound (upper : jsval) (open : bool) : error + key_range :=
  if valid_key upper then
    inr {| kr_lower := None; kr_upper := Some upper;
           kr_lowerOpen := true; kr_upperOpen := open |}
  else inl DataError.

Definition IDBKeyRange_lowerBound (lower : jsval) (open : bool) : error + key_range :=
  if valid_key lower then
    inr {| kr_lower := Some lower; kr_upper := None;
           kr_lowerOpen := open; kr_upperOpen := true |}
  else inl DataError.

(** Running the call [getRange] returns; [None] is "no range". *)
Definition eval_range (c : option range_call) : error + option key_range :=
  match c with
  | None => inr None
  | Some (Bound l u lo uo) =>
      match IDBKeyRange_bound l u lo uo with inl e => inl e | inr r => inr (Some r) end
  | Some (UpperBound u op) =>
      match IDBKeyRange_upperBound u op with inl e => inl e | inr r => inr (Some r) end
  | Some (LowerBound l op) =>
      match IDBKeyRange_lowerBound l op with inl e => inl e | inr r => inr (Some r) end
  end.

Definition above_lower (r : key_range) (k : jsval) : bool :=
  match kr_lower r with
  | None => true
  | Some l => match key_compare l k with
              | Lt => true
              | Eq => negb (kr_lowerOpen r)
              | Gt => false
              end
  end.

Definition below_upper (r : key_range) (k : jsval) : bool :=
  match kr_upper r with
  | None => true
  | Some u => match key_compare k u with
              | Lt => true
              | Eq => negb (kr_upperOpen r)
              | Gt => false
              end
  end.

(** [range.includes(k)]; an absent range includes every key. *)
Definition includes (r : option key_range) (k : jsval) : bool :=
  match r with
  | None => true
  | Some r => above_lower r k && below_upper r k
  end.

(** An object store with [keyPath: 'key']: records [{key, value}] in key
    order, one per key. *)
Abbreviation record := (jsval * jsval)%type.
Abbreviation table := (list record).

(** [store.get(k)]: the record stored under [k], the [result] of the
    request; [None] is [undefined]. *)
Fixpoint store_get (k : jsval) (t : table) : option record :=
  match t with
  | [] => None
  | (k', v) :: rest =>
      match key_compare k k' with
      | Eq => Some (k', v)
      | _ => store_get k rest
      end
  end.

Fixpoint store_put (k v : jsval) (t : table) : table :=
  match t with
  | [] => [(k, v)]
  | (k', v') :: rest =>
      match key_compare k k' with
      | Lt => (k, v) :: (k', v') :: rest
      | Eq => (k, v) :: rest
      | Gt => (k', v') :: store_put k v rest
      end
  end.

Fixpoint store_delete (k : jsval) (t : table) : table :=
  match t with
  | [] => []
  | (k', v') :: rest =>
      match key_compare k k' with
      | Eq => rest
      | _ => (k', v') :: store_delete k rest
      end
  end.

(** The positions an [openCursor(range, direction)] visits: the keys of the
    range, ascending, or descending for ['prevunique']. *)
Definition cursor_keys (t : table) (r : option key_range) (prev : bool) : list jsval :=
  let ks := filter (includes r) (map fst t) in
  if prev then rev ks else ks.

(** The answer of the engine to a pending request: its [success] event or
    its [error] event. *)
Inductive outcome : Type :=
| Success
| Failure (e : error).

(** [deleteDatabase] may also be answered by [blocked]. *)
Inductive open_outcome : Type :=
| OpenSuccess
| OpenError (e : error)
| OpenBlocked (e : error).

(** The end of a transaction: [complete] or [error]. *)
Inductive tx_outcome : Type :=
| Complete
| TxError (e : error).

(** ** Promises and results *)

Inductive promise (A : Type) : Type :=
| Pending
| Resolved (a : A)
| Rejected (e : error).
Arguments Pending {A}.
Arguments Resolved {A} a.
Arguments Rejected {A} e.

(** A JavaScript [Map]: entries in insertion order, keys distinct. *)
Abbreviation jsmap := (list (jsval * jsval)).

Fixpoint map_set (k v : jsval) (m : jsmap) : jsmap :=
  match m with
  | [] => [(k, v)]
  | (k', v') :: rest =>
      if same_value_zero k' k then (k', v) :: rest
      else (k', v') :: map_set k v rest
  end.

Fixpoint map_get (k : jsval) (m : jsmap) : option jsval :=
  match m with
  | [] => None
  | (k', v') :: rest => if same_value_zero k' k then Some v' else map_get k rest
  end.

(** The object a request-style operation resolves with: [{}], [{data}] or
    [{err}]. *)
Inductive result : Type :=
| Empty
| Data (d : jsval)
| Rows (m : jsmap)
| Err (e : error).

(** ** The handle and [getStore] *)

(** An [IDBDatabase]: its object stores, by name. *)
Definition database : Type := list (string * table).

Fixpoint objectStore (loc : string) (d : database) : option table :=
  match d with
  | [] => None
  | (name, t) :: rest => if (name =? loc)%string then Some t else objectStore loc rest
  end.

Fixpoint set_objectStore (loc : string) (t : table) (d : database) : database :=
  match d with
  | [] => []
  | (name, t') :: rest =>
      if (name =? loc)%string then (name, t) :: rest
      else (name, t') :: set_objectStore loc t rest
  end.

(** [this._loc] and [this._db]; [_db] is [null] until [init] has run. *)
Record Indexed : Type := {
  _loc : string;
  _db : option database
}.

Inductive tx_mode : Type := ReadWrite | ReadOnly.

(** [db.transaction(loc, type)] throws when [db] is [null] or has no object
    store of that name. *)
Definition db_transaction (db : option database) (loc : string) : error + table :=
  match db with
  | None => inl TypeError
  | Some d => match objectStore loc d with
              | Some t => inr t
              | None => inl NotFoundError
              end
  end.

(** What [getStore] returns: the object [{ tx, store }], or, from its
    [catch], the promise [Promise.reject({ err: error })]. *)
Inductive getStore_result : Type :=
| TxStore (type : tx_mode) (store : table)
| RejectedPromise (reason : result).

Definition getStore (db : option database) (loc : string) (type : tx_mode)
  : getStore_result :=
  match db_transaction db loc with
  | inr t => TxStore type t
  | inl e => RejectedPromise (Err e)
  end.

(** [const { store } = getStore(...)] and [const { tx, store } = ...]: a
    promise has neither property, both names are bound to [undefined]. *)
Definition store_of (g : getStore_result) : option table :=
  match g with
  | TxStore _ s => Some s
  | RejectedPromise _ => None
  end.

(** ** What an operation does

    [hook_calls] are the calls made to [Indexed.onerror], [settled] is the
    final state of the returned promise, [after] the handle once the
    transaction is over. *)
Record reply : Type := {
  hook_calls : list error;
  settled : promise result;
  after : Indexed
}.

(** [if (Indexed.onerror) Indexed.onerror(e)]. *)
Definition hook (hook_set : bool) (e : error) : list error :=
  if hook_set then [e] else [].

(** An exception thrown inside the executor of [new Promise] rejects it. *)
Definition throws (self : Indexed) (e : error) : reply :=
  {| hook_calls := []; settled := Rejected e; after := self |}.

Definition with_store (self : Indexed) (t : table) : Indexed :=
  {| _loc := _loc self;
     _db := match _db self with
            | Some d => Some (set_objectStore (_loc self) t d)
            | None => None
            end |}.

(** ** Point operations *)

Definition drop (ev : open_outcome) : list error * promise result :=
  match ev with
  | OpenSuccess => ([], Resolved (Data (JBool true)))
  | OpenError e => ([], Resolved (Err e))
  | OpenBlocked e => ([], Resolved (Err e))
  end.

Definition count (self : Indexed) (hook_set : bool) (ev : outcome) : reply :=
  match store_of (getStore (_db self) (_loc self) ReadWrite) with
  | None => throws self TypeError
  | Some store =>
      match ev with
      | Success =>
          {| hook_calls := [];
             settled := Resolved (Data (js_or (JNum (Z.of_nat (List.length store))) (JNum 0)));
             after := self |}
      | Failure e =>
          {| hook_calls := []; settled := Resolved (Err e); after := self |}
      end
  end.

Definition has (self : Indexed) (key : jsval) (hook_set : bool) (ev : outcome) : reply :=
  match store_of (getStore (_db self) (_loc self) ReadWrite) with
  | None => throws self TypeError
  | Some store =>
      if valid_key key then
        match ev with
        | Failure e =>
            {| hook_calls := hook hook_set e; settled := Resolved (Err e); after := self |}
        | Success =>
            {| hook_calls := [];
               settled := Resolved (Data (JBool (match store_get key store with
                                                 | Some _ => true
                                                 | None => false
                                                 end)));
               after := self |}
        end
      else throws self DataError
  end.

Definition get (self : Indexed) (key : jsval) (hook_set : bool) (ev : outcome) : reply :=
  match store_of (getStore (_db self) (_loc self) ReadOnly) with
  | None => throws self TypeError
  | Some store =>
      if valid_key key then
        match ev with
        | Failure e =>
            {| hook_calls := hook hook_set e; settled := Resolved (Err e); after := self |}
        | Success =>
            match store_get key store with
            | None =>
                {| hook_calls := []; settled := Resolved (Err NotFound); after := self |}
            | Some (_, value) =>
                {| hook_calls := []; settled := Resolved (Data value); after := self |}
            end
        end
      else throws self DataError
  end.

Definition put (self : Indexed) (key value : jsval) (hook_set : bool) (ev : outcome)
  : reply :=
  match store_of (getStore (_db self) (_loc self) ReadWrite) with
  | None => throws self TypeError
  | Some store =>
      if valid_key key then
        match ev with
        | Failure e =>
            {| hook_calls := hook hook_set e; settled := Resolved (Err e); after := self |}
        | Success =>
            {| hook_calls := []; settled := Resolved Empty;
               after := with_store self (store_put key value store) |}
        end
      else throws self DataError
  end.

Definition del (self : Indexed) (key : jsval) (hook_set : bool) (ev : outcome) : reply :=
  match store_of (getStore (_db self) (_loc self) ReadWrite) with
  | None => throws self TypeError
  | Some store =>
      if valid_key key then
        match ev with
        | Failure e =>
            {| hook_calls := hook hook_set e; settled := Resolved (Err e); after := self |}
        | Success =>
            {| hook_calls := []; settled := Resolved Empty;
               after := with_store self (store_delete key store) |}
        end
      else throws self DataError
  end.

(** ** batch

    [eachOp] runs against the store of one transaction: it appends requests
    to the transaction's queue and may throw.  This is a state monad over
    the queue with exceptions. *)

Inductive request : Type :=
| Put (key value : jsval)
| Delete (key : jsval).

Definition queued (A : Type) : Type := list request -> list request * (error + A).

Definition ret {A : Type} (a : A) : queued A := fun q => (q, inr a).

Definition bind {A B : Type} (m : queued A) (f : A -> queued B) : queued B :=
  fun q => match m q with
           | (q', inl e) => (q', inl e)
           | (q', inr a) => f a q'
           end.

Notation "m ;; k" := (bind m (fun _ => k)) (at level 61, right associativity).

Definition throw {A : Type} (e : error) : queued A := fun q => (q, inl e).

Definition enqueue (r : request) : queued unit := fun q => (q ++ [r], inr tt).

Definition when (c : bool) (m : queued unit) : queued unit := if c then m else ret tt.

(** [store.put({ key, value })] and [store.delete(key)]. *)
Definition tx_put (key value : jsval) : queued unit :=
  if valid_key key then enqueue (Put key value) else throw DataError.

Definition tx_delete (key : jsval) : queued unit :=
  if valid_key key then enqueue (Delete key) else throw DataError.

Record op : Type := {
  op_type : jsval;
  op_key : jsval;
  op_value : jsval
}.

Definition eachOp (o : op) : queued unit :=
  when (strict_eq (op_type o) (JStr "put")) (tx_put (op_key o) (op_value o)) ;;
  when (strict_eq (op_type o) (JStr "del")) (tx_delete (op_key o)).

Fixpoint forEach (f : op -> queued unit) (ops : list op) : queued unit :=
  match ops with
  | [] => ret tt
  | o :: rest => f o ;; forEach f rest
  end.

Definition apply_request (t : table) (r : request) : table :=
  match r with
  | Put k v => store_put k v t
  | Delete k => store_delete k t
  end.

(** The transaction commits its queue as a whole or not at all. *)
Definition commit (q : list request) (t : table) : table := fold_left apply_request q t.

Definition batch (self : Indexed) (ops : list op) (hook_set : bool) (ev : tx_outcome)
  : reply :=
  match store_of (getStore (_db self) (_loc self) ReadWrite) with
  | None => throws self TypeError
  | Some store =>
      let (q, thrown) := forEach eachOp ops [] in
      {| hook_calls := match ev with
                       | TxError e => hook hook_set e
                       | Complete => []
                       end;
         settled := match thrown, ev with
                    | inl e, _ => Rejected e
                    | inr _, Complete => Resolved Empty
                    | inr _, TxError e => Resolved (Err e)
                    end;
         after := match ev with
                  | Complete => with_store self (commit q store)
                  | TxError _ => self
                  end |}
  end.

(** ** read

    [read] opens a cursor and resolves [{ events }] at once; the caller then
    attaches callbacks, and the engine starts answering.  The stream below
    is what the closures of [read] hold: the store of the read-only
    transaction, [opts.limit], the counter [count], and which request is
    pending. *)

(** Which of [events.ondata], [events.onerror], [events.onend] are set. *)
Record handlers : Type := {
  ondata : bool;
  onerror : bool;
  onend : bool
}.

Inductive event : Type :=
| Ondata (key value : jsval)
| Onerror (e : error)
| Onend.

(** A call the pipeline makes: [Indexed.onerror(e)], or a callback of
    [events]. *)
Inductive effect : Type :=
| GlobalHook (e : error)
| Fire (ev : event).

Inductive phase : Type :=
| CursorPending (rest : list jsval)
    (* [openCursor] or [cursor.continue()] awaits its answer; [rest] are
       the positions not yet reached *)
| LookupPending (key : jsval) (rest : list jsval)
    (* the cursor stands at [key], [store.get(key)] awaits its answer *)
| Quiet.
    (* no request is pending: the engine has nothing left to answer *)

Record stream : Type := {
  s_store : table;
  s_limit : jsval;
  s_count : Z;
  s_phase : phase
}.

Definition fire (set : bool) (ev : event) : list effect :=
  if set then [Fire ev] else [].

Definition global (hook_set : bool) (e : error) : list effect :=
  if hook_set then [GlobalHook e] else [].

Definition move (s : stream) (count : Z) (p : phase) : stream :=
  {| s_store := s_store s; s_limit := s_limit s; s_count := count; s_phase := p |}.

Section Stream.

(** StringToNumber of the language, for a string that converts to an
    integer; [None] is [NaN] (or a value that is not an integer). *)
Variable StringToNumber : string -> option Z.

Definition ToNumber (v : jsval) : option Z :=
  match v with
  | JUndefined | JNaN => None
  | JNull => Some 0%Z
  | JBool b => Some (if b then 1%Z else 0%Z)
  | JNum n => Some n
  | JStr s => StringToNumber s
  end.

(** [count === (opts.limit - 1)], on the value of [count] before its
    increment. *)
Definition at_limit (limit : jsval) (count : Z) : bool :=
  match ToNumber limit with
  | Some n => (count =? n - 1)%Z
  | None => false
  end.

(** One answer of the engine, handled by [onError], [onSuccess] or the
    callbacks of the inner [store.get]. *)
Definition deliver (h : handlers) (hook_set : bool) (o : outcome) (s : stream)
  : stream * list effect :=
  match s_phase s with
  | Quiet => (s, [])
  | CursorPending positions =>
      match o with
      | Failure e =>
          (move s (s_count s) Quiet, global hook_set e ++ fire (onerror h) (Onerror e))
      | Success =>
          match positions with
          | [] => (move s (s_count s) Quiet, fire (onend h) Onend)
          | key :: rest => (move s (s_count s) (LookupPending key rest), [])
          end
      end
  | LookupPending at_key rest =>
      match o with
      | Failure e =>
          (move s (s_count s) Quiet, global hook_set e ++ fire (onerror h) (Onerror e))
      | Success =>
          match store_get at_key (s_store s) with
          | None => (move s (s_count s) Quiet, [])
              (* [this.result] is undefined: the callback throws *)
          | Some (key, value) =>
              if truthy (s_limit s) then
                if at_limit (s_limit s) (s_count s) then
                  (move s (s_count s + 1) Quiet,
                   fire (ondata h) (Ondata key value) ++ fire (onend h) Onend)
                else
                  (move s (s_count s + 1) (CursorPending rest),
                   fire (ondata h) (Ondata key value))
              else
                (move s (s_count s) (CursorPending rest),
                 fire (ondata h) (Ondata key value))
          end
      end
  end.

(** The stream under a sequence of answers. *)
Fixpoint run (h : handlers) (hook_set : bool) (os : list outcome) (s : stream)
  : stream * list effect :=
  match os with
  | [] => (s, [])
  | o :: rest =>
      let (s1, t1) := deliver h hook_set o s in
      let (s2, t2) := run h hook_set rest s1 in
      (s2, t1 ++ t2)
  end.

Definition read (self : Indexed) (opts : options) : promise stream :=
  match store_of (getStore (_db self) (_loc self) ReadOnly) with
  | None => Rejected TypeError
  | Some store =>
      match eval_range (getRange opts) with
      | inl e => Rejected e
      | inr range =>
          Resolved {| s_store := store;
                      s_limit := o_limit opts;
                      s_count := 0;
                      s_phase := CursorPending
                                   (cursor_keys store range (truthy (o_reverse opts))) |}
      end
  end.

(** ** readAll

    The three callbacks of [readAll] share [rows] and [resolve]; a promise
    keeps its first resolution. *)

Definition all_handlers : handlers := {| ondata := true; onerror := true; onend := true |}.

Inductive resolution : Type :=
| WithRows            (* [resolve({ data: rows })], the map itself *)
| WithErr (e : error).

Record gathering : Type := {
  g_rows : jsmap;
  g_resolved : option resolution;
  g_hook : list error
}.

Definition resolve (r : resolution) (p : option resolution) : option resolution :=
  match p with
  | None => Some r
  | Some _ => p
  end.

Definition gather (hook_set : bool) (g : gathering) (x : effect) : gathering :=
  match x with
  | GlobalHook e =>
      {| g_rows := g_rows g; g_resolved := g_resolved g; g_hook := g_hook g ++ [e] |}
  | Fire (Ondata key value) =>
      {| g_rows := map_set key value (g_rows g); g_resolved := g_resolved g;
         g_hook := g_hook g |}
  | Fire (Onerror err) =>
      {| g_rows := g_rows g; g_resolved := resolve (WithErr err) (g_resolved g);
         g_hook := g_hook g ++ hook hook_set err |}
  | Fire Onend =>
      {| g_rows := g_rows g; g_resolved := resolve WithRows (g_resolved g);
         g_hook := g_hook g |}
  end.

Definition readAll (self : Indexed) (opts : options) (hook_set : bool)
           (os : list outcome) : reply :=
  match read self opts with
  | Resolved s =>
      let g := fold_left (gather hook_set) (snd (run all_handlers hook_set os s))
                         {| g_rows := []; g_resolved := None; g_hook := [] |} in
      {| hook_calls := g_hook g;
         settled := match g_resolved g with
                    | None => Pending
                    | Some WithRows => Resolved (Rows (g_rows g))
                    | Some (WithErr e) => Resolved (Err e)
                    end;
         after := self |}
  | _ => {| hook_calls := []; settled := Pending; after := self |}
  end.

End Stream.

(** The events of a trace, without the calls to the global hook. *)
Fixpoint events_of (t : list effect) : list event :=
  match t with
  | [] => []
  | Fire ev :: rest => ev :: events_of rest
  | GlobalHook _ :: rest => events_of rest
  end.

Definition terminal (ev : event) : bool :=
  match ev with
  | Ondata _ _ => false
  | Onerror _ | Onend => true
  end.

(** Plain decimal literals, enough to run the pipeline on examples. *)
Fixpoint decimal (acc : Z) (s : string) : option Z :=
  match s with
  | EmptyString => Some acc
  | String c rest =>
      let d := Z.of_nat (nat_of_ascii c) in
      if ((48 <=? d) && (d <=? 57))%Z then decimal (10 * acc + (d - 48)) rest else None
  end.

Definition handle (loc : string) (t : table) : Indexed :=
  {| _loc := loc; _db := Some [(loc, t)] |}.

Definition table_of (l : list record) : table :=
  fold_left (fun t r => store_put (fst r) (snd r) t) l [].

(** The records a cursor over [r] passes, in its order. *)
Definition cursor_records (t : table) (r : option key_range) (prev : bool) : list record :=
  let rs := filter (fun rc => includes r (fst rc)) t in
  if prev then rev rs else rs.

(** The invariant of an object store: valid keys, strictly ascending. *)
Fixpoint ordered (t : table) : bool :=
  match t with
  | [] => true
  | (k, _) :: rest =>
      valid_key k
      && forallb (fun rc => match key_compare k (fst rc) with Lt => true | _ => false end) rest
      && ordered rest
  end.

(** ** Reference points for [batch] *)

Definition recognized (o : op) : bool :=
  strict_eq (op_type o) (JStr "put") || strict_eq (op_type o) (JStr "del").

Definition request_of (o : op) : request :=
  if strict_eq (op_type o) (JStr "put") then Put (op_key o) (op_value o)
  else Delete (op_key o).

(** The queue a list of [put] and [del] operations builds: one request
    each, in list order, up to the first key the engine refuses. *)
Fixpoint queue_of (q : list request) (ops : list op) : list request * (error + unit) :=
  match ops with
  | [] => (q, inr tt)
  | o :: rest =>
      if valid_key (op_key o) then queue_of (q ++ [request_of o]) rest
      else (q, inl DataError)
  end.

(** ** Reference points for [read] and [readAll] *)

(** [events.ondata(rc.key, rc.value)]. *)
Definition data (rc : record) : event := Ondata (fst rc) (snd rc).

(** [if (events.ondata) events.ondata(rc.key, rc.value)]. *)
Definition emit (h : handlers) (rc : record) : list effect := fire (ondata h) (data rc).

(** The pairs a sequence of events hands to [ondata]. *)
Fixpoint datas (l : list event) : list record :=
  match l with
  | [] => []
  | Ondata k v :: rest => (k, v) :: datas rest
  | _ :: rest => datas rest
  end.

(** A sequence of events with nothing after [onerror] or [onend]. *)
Fixpoint orderly (l : list event) : bool :=
  match l with
  | [] => true
  | ev :: rest =>
      if terminal ev then match rest with [] => true | _ :: _ => false end
      else orderly rest
  end.

(** The value delivered last for a key. *)
Definition last_value (k : jsval) (ds : list record) : option jsval :=
  option_map snd (find (fun rc => same_value_zero (fst rc) k) (rev ds)).

(** The mapping [readAll] builds from the pairs delivered. *)
Definition rows_of (ds : list record) : jsmap :=
  fold_left (fun m rc => map_set (fst rc) (snd rc) m) ds [].

(** What the callbacks of [readAll] settle, in terms of the events. *)
Definition settle (p : option resolution) (ev : event) : option resolution :=
  match ev with
  | Ondata _ _ => p
  | Onerror e => resolve (WithErr e) p
  | Onend => resolve WithRows p
  end.

(** The positions a stream has still to deliver. *)
Definition pending_keys (p : phase) : list jsval :=
  match p with
  | CursorPending rest => rest
  | LookupPending k rest => k :: rest
  | Quiet => []
  end.

(** Every pending position has its record in the store. *)
Definition lookups_hit (s : stream) : Prop :=
  Forall (fun k => exists v, store_get k (s_store s) = Some (k, v))
         (pending_keys (s_phase s)).

(** [opts] without its [limit]. *)
Definition without_limit (o : options) : options :=
  {| o_lt := o_lt o; o_lte := o_lte o; o_gt := o_gt o; o_gte := o_gte o;
     o_limit := JUndefined; o_reverse := o_reverse o |}.

(** [{ limit: n }]. *)
Definition limit_only (n : Z) : options :=
  {| o_lt := JUndefined; o_lte := JUndefined; o_gt := JUndefined;
     o_gte := JUndefined; o_limit := JNum n; o_reverse := JUndefined |}.

(** Four records, put in no particular order. *)
Definition four_rows : table :=
  table_of [(JStr "b", JNum 2); (JStr "a", JNum 1); (JStr "d", JNum 4); (JStr "c", JNum 3)].

(** ** The constructor, [init] and [open] *)

(** [new Indexed(loc)]. *)
Definition new_Indexed (loc : string) : Indexed := {| _loc := loc; _db := None |}.

(** [db.createObjectStore(loc, { keyPath: 'key' })] during an upgrade; it
    throws when the database has a store of that name already, here
    [None]. *)
Definition createObjectStore (loc : string) (d : database) : option database :=
  match objectStore loc d with
  | Some _ => None
  | None => Some (d ++ [(loc, [])])
  end.

(** How the engine answers [window.indexedDB.open(loc)], called without a
    version: a name it does not hold is created empty ([upgradeneeded],
    then [success]), a database it holds is opened as it is ([success]
    alone), or the request fails ([error]). *)
Inductive open_answer : Type :=
| Created
| Found (d : database)
| OpenFailed (e : error).

(** [init]: on [error] the callback throws inside the event and [resolve]
    is never called; on [upgradeneeded] the store is created and the
    promise resolves when that transaction completes; on [success] the
    handle takes the database and resolves. *)
Definition init (self : Indexed) (r : open_answer) : promise Indexed :=
  match r with
  | OpenFailed _ => Pending
  | Created =>
      match createObjectStore (_loc self) [] with
      | Some d => Resolved {| _loc := _loc self; _db := Some d |}
      | None => Pending
      end
  | Found d => Resolved {| _loc := _loc self; _db := Some d |}
  end.

(** [Indexed.open(loc)]: [new Indexed(loc)], then [await indexed.init()]. *)
Definition open (loc : string) (r : open_answer) : promise Indexed :=
  init (new_Indexed loc) r.

(** ** Reference points for the properties of the operations *)

(** Strictly below, and at most, in the order of keys. *)
Definition key_lt (a b : jsval) : bool :=
  match key_compare a b with Lt => true | _ => false end.

Definition key_le (a b : jsval) : bool :=
  match key_compare a b with Gt => false | _ => true end.

(** One element of a batch, run on its own as [put] or [del] with a
    successful request. *)
Definition apply_op (self : Indexed) (o : op) : Indexed :=
  if strict_eq (op_type o) (JStr "put") then
    after (put self (op_key o) (op_value o) false Success)
  else if strict_eq (op_type o) (JStr "del") then
    after (del self (op_key o) false Success)
  else self.

(** [opts] without [reverse]. *)
Definition forward (o : options) : options :=
  {| o_lt := o_lt o; o_lte := o_lte o; o_gt := o_gt o; o_gte := o_gte o;
     o_limit := o_limit o; o_reverse := JUndefined |}.

(** The errors a call of the stream, seen through the callbacks of
    [readAll], reports to [Indexed.onerror]. *)
Definition reported (hook_set : bool) (x : effect) : list error :=
  match x with
  | GlobalHook e => [e]
  | Fire (Onerror e) => hook hook_set e
  | Fire _ => []
  end.

(** The errors a sequence of events hands to [onerror]. *)
Fixpoint errors_of (l : list event) : list error :=
  match l with
  | [] => []
  | Onerror e :: rest => e :: errors_of rest
  | _ :: rest => errors_of rest
  end.

(** [rc] is the record the store holds under its key. *)
Definition stored (t : table) (rc : record) : Prop := store_get (fst rc) t = Some rc.

(** The store a handle works on, if its transactions can be created. *)
Definition store_at (self : Indexed) : option table :=
  match db_transaction (_db self) (_loc self) with
  | inr t => Some t
  | inl _ => None
  end.

(** A request the engine accepted: [put] is only queued under a valid
    key. *)
Definition well_keyed (r : request) : Prop :=
  match r with
  | Put k _ => valid_key k = true
  | Delete _ => True
  end.

(** An element of a batch that [eachOp] runs without an exception: its
    [type] is not recognized, or its key is valid. *)
Definition runs_clean (o : op) : bool := negb (recognized o) || valid_key (op_key o).

(** The records a stream delivers out of [recs] when nothing fails: the
    first [N] under a limit [N >= 1], all of them otherwise. *)
Definition capped (limit : jsval) (recs : list record) : list record :=
  match limit with
  | JNum N => if (1 <=? N)%Z then firstn (Z.to_nat N) recs else recs
  | _ => recs
  end.

(** The records the store holds at a list of positions. *)
Definition records_at (t : table) (ks : list jsval) : list record :=
  flat_map (fun k => match store_get k t with Some rc => [rc] | None => [] end) ks.

(** * Properties *)

(** ** Keys and object stores *)

Lemma string_compare_refl (s : string) : String.compare s s = Eq.
Proof.
  pose proof (String.compare_antisym s s) as H.
  destruct (String.compare s s); simpl in H; congruence.
Qed.

Lemma key_compare_refl (k : jsval) : key_compare k k = Eq.
Proof.
  destruct k; simpl; auto using Z.compare_refl, string_compare_refl.
Qed.

Lemma key_compare_eq (a b : jsval) :
  valid_key a = true -> valid_key b = true -> key_compare a b = Eq -> a = b.
Proof.
  destruct a, b; simpl; try discriminate; intros _ _ H.
  - apply Z.compare_eq in H. congruence.
  - apply String.compare_eq_iff in H. congruence.
Qed.

Lemma ordered_valid (t : table) (rc : record) :
  ordered t = true -> In rc t -> valid_key (fst rc) = true.
Proof.
  induction t as [|[k v] rest IH]; simpl; [tauto|].
  intros Ho [<-|Hin].
  - apply andb_true_iff in Ho as [Ho _]. apply andb_true_iff in Ho as [Hv _]. exact Hv.
  - apply andb_true_iff in Ho as [_ Ho]. auto.
Qed.

(** In an object store a key leads to its own record. *)
Lemma store_get_in (t : table) (rc : record) :
  ordered t = true -> In rc t -> store_get (fst rc) t = Some rc.
Proof.
  induction t as [|[k v] rest IH]; simpl; [tauto|].
  intros Ho Hin.
  apply andb_true_iff in Ho as [Ho Hrest].
  apply andb_true_iff in Ho as [Hv Hlt].
  destruct Hin as [<-|Hin].
  - simpl. now rewrite key_compare_refl.
  - rewrite forallb_forall in Hlt. specialize (Hlt _ Hin).
    destruct (key_compare (fst rc) k) eqn:Hc; auto.
    apply key_compare_eq in Hc; [|eapply ordered_valid; eauto | exact Hv].
    rewrite Hc, key_compare_refl in Hlt. discriminate.
Qed.

Lemma store_get_found (t : table) (k : jsval) (rc : record) :
  store_get k t = Some rc -> In rc t /\ key_compare k (fst rc) = Eq.
Proof.
  induction t as [|[k' v] rest IH]; simpl; [discriminate|].
  destruct (key_compare k k') eqn:Hc; intros H.
  - injection H as <-. auto.
  - destruct (IH H); auto.
  - destruct (IH H); auto.
Qed.

(** A valid key that no record carries is looked up in vain. *)
Lemma store_get_absent (t : table) (k : jsval) :
  ordered t = true -> valid_key k = true ->
  (forall v, ~ In (k, v) t) -> store_get k t = None.
Proof.
  intros Ho Hk Habs.
  destruct (store_get k t) as [[k' v]|] eqn:Hg; [|reflexivity].
  apply store_get_found in Hg as [Hin Hc]. simpl in Hc.
  apply key_compare_eq in Hc; [|exact Hk|exact (ordered_valid t _ Ho Hin)].
  subst k'. destruct (Habs v Hin).
Qed.

(** The order of keys is a strict order. *)
Lemma string_compare_trans (a b c : string) :
  String.compare a b = Lt -> String.compare b c = Lt -> String.compare a c = Lt.
Proof.
  revert b c. induction a as [|x a IH]; intros [|y b] [|z c]; simpl;
    try discriminate; auto.
  unfold Ascii.compare.
  destruct (N.compare_spec (N_of_ascii x) (N_of_ascii y)) as [Exy|Lxy|Gxy];
    try discriminate;
    destruct (N.compare_spec (N_of_ascii y) (N_of_ascii z)) as [Eyz|Lyz|Gyz];
    try discriminate; intros Hab Hbc.
  - rewrite Exy, Eyz, N.compare_refl. eauto.
  - rewrite Exy. now apply N.compare_lt_iff in Lyz as ->.
  - rewrite <- Eyz. now apply N.compare_lt_iff in Lxy as ->.
  - assert (L : (N_of_ascii x < N_of_ascii z)%N) by (eapply N.lt_trans; eauto).
    now apply N.compare_lt_iff in L as ->.
Qed.

Lemma key_compare_trans (a b c : jsval) :
  key_compare a b = Lt -> key_compare b c = Lt -> key_compare a c = Lt.
Proof.
  destruct a, b, c; simpl; try discriminate; auto.
  - rewrite !Z.compare_lt_iff. apply Z.lt_trans.
  - apply string_compare_trans.
Qed.

Lemma key_compare_gt (a b : jsval) : key_compare a b = Gt -> key_compare b a = Lt.
Proof.
  destruct a, b; simpl; try discriminate; auto.
  - rewrite Z.compare_antisym. now destruct (n0 ?= n)%Z.
  - rewrite String.compare_antisym. now destruct (String.compare s0 s).
Qed.

Lemma store_put_in (k v : jsval) (t : table) (rc : record) :
  In rc (store_put k v t) -> rc = (k, v) \/ In rc t.
Proof.
  induction t as [|[k' v'] rest IH]; simpl.
  - intros [<-|[]]. now left.
  - destruct (key_compare k k'); simpl; intuition.
Qed.

Lemma store_delete_in (k : jsval) (t : table) (rc : record) :
  In rc (store_delete k t) -> In rc t.
Proof.
  induction t as [|[k' v'] rest IH]; simpl; [tauto|].
  destruct (key_compare k k'); simpl; intuition.
Qed.

(** [put] and [delete] keep an object store in order. *)
Lemma store_put_ordered (k v : jsval) (t : table) :
  valid_key k = true -> ordered t = true -> ordered (store_put k v t) = true.
Proof.
  intros Hk. induction t as [|[k' v'] rest IH]; simpl.
  - intros _. now rewrite Hk.
  - intros Ho. apply andb_true_iff in Ho as [Ho Hrest].
    apply andb_true_iff in Ho as [Hk' Hlt].
    destruct (key_compare k k') eqn:Hc; simpl.
    + apply key_compare_eq in Hc; [|exact Hk|exact Hk']. subst k'.
      now rewrite Hk, Hlt, Hrest.
    + rewrite Hk, Hc, Hk', Hlt, Hrest. simpl.
      rewrite andb_true_r. apply forallb_forall. intros rc Hin.
      rewrite forallb_forall in Hlt. specialize (Hlt rc Hin).
      destruct (key_compare k' (fst rc)) eqn:Hc'; try discriminate.
      now rewrite (key_compare_trans _ _ _ Hc Hc').
    + rewrite Hk', (IH Hrest). rewrite andb_true_r. simpl.
      apply forallb_forall. intros rc Hin.
      apply store_put_in in Hin as [->|Hin].
      * simpl. now rewrite (key_compare_gt _ _ Hc).
      * rewrite forallb_forall in Hlt. exact (Hlt rc Hin).
Qed.

Lemma store_delete_ordered (k : jsval) (t : table) :
  ordered t = true -> ordered (store_delete k t) = true.
Proof.
  induction t as [|[k' v'] rest IH]; simpl; [auto|].
  intros Ho. apply andb_true_iff in Ho as [Ho Hrest].
  apply andb_true_iff in Ho as [Hk' Hlt].
  destruct (key_compare k k'); simpl; auto;
    rewrite Hk', (IH Hrest), andb_true_r; simpl;
    apply forallb_forall; intros rc Hin; apply store_delete_in in Hin;
    rewrite forallb_forall in Hlt; exact (Hlt rc Hin).
Qed.

(** A committed queue of requests with valid keys keeps the store in
    order. *)
Lemma commit_ordered (q : list request) :
  forall t : table,
    Forall (fun r => match r with
                     | Put k _ => valid_key k = true
                     | Delete _ => True
                     end) q ->
    ordered t = true -> ordered (commit q t) = true.
Proof.
  unfold commit. induction q as [|r q IH]; intros t Hq Ho; simpl; [exact Ho|].
  inversion Hq as [|r0 q0 Hr Hrest]; subst. apply IH; [exact Hrest|].
  destruct r as [k v|k]; simpl;
    [now apply store_put_ordered|now apply store_delete_ordered].
Qed.

Lemma objectStore_handle (loc : string) (t : table) :
  getStore (_db (handle loc t)) (_loc (handle loc t)) ReadWrite = TxStore ReadWrite t
  /\ getStore (_db (handle loc t)) (_loc (handle loc t)) ReadOnly = TxStore ReadOnly t.
Proof.
  unfold getStore, db_transaction, handle; simpl.
  now rewrite String.eqb_refl.
Qed.

(** ** getRange *)

(** What [getRange] passes to [IDBKeyRange.bound] when both sides are
    given: the third argument, the openness of the lower bound, says
    whether [lt] is defined, and the fourth, that of the upper bound,
    whether [gt] is. *)
Lemma getRange_both (o : options) :
  truthy (js_or (o_lte o) (o_lt o)) = true ->
  truthy (js_or (o_gte o) (o_gt o)) = true ->
  getRange o = Some (Bound (js_or (o_gte o) (o_gt o)) (js_or (o_lte o) (o_lt o))
                           (is_defined (o_lt o)) (is_defined (o_gt o))).
Proof.
  intros Hu Hl. unfold getRange. now rewrite Hu, Hl.
Qed.

(** The one-sided ranges take the flag of their own side. *)
Lemma getRange_upper_only (o : options) :
  truthy (js_or (o_lte o) (o_lt o)) = true ->
  truthy (js_or (o_gte o) (o_gt o)) = false ->
  getRange o = Some (UpperBound (js_or (o_lte o) (o_lt o)) (is_defined (o_lt o))).
Proof.
  intros Hu Hl. unfold getRange. now rewrite Hu, Hl.
Qed.

Lemma getRange_lower_only (o : options) :
  truthy (js_or (o_lte o) (o_lt o)) = false ->
  truthy (js_or (o_gte o) (o_gt o)) = true ->
  getRange o = Some (LowerBound (js_or (o_gte o) (o_gt o)) (is_defined (o_gt o))).
Proof.
  intros Hu Hl. unfold getRange. now rewrite Hu, Hl.
Qed.

(** C1.  The claim: with a lower key ([gt] or [gte]) and an upper key ([lt]
    or [lte]), the lower bound of the range is exclusive iff [gt] was used
    and the upper bound iff [lt] was.  The code passes the two flags to
    [bound] in the other order: for [{ gt: 1, lte: 5 }] the range is
    [bound(1, 5, false, true)], which holds 1 and not 5, where the claim
    asks for a range without 1 and with 5. *)
Theorem getRange_gt_lte_flags_swapped :
  let o := {| o_lt := JUndefined; o_lte := JNum 5; o_gt := JNum 1;
              o_gte := JUndefined; o_limit := JUndefined; o_reverse := JUndefined |} in
  getRange o = Some (Bound (JNum 1) (JNum 5) false true)
  /\ (exists r, eval_range (getRange o) = inr (Some r)
                /\ kr_lowerOpen r = false /\ kr_upperOpen r = true
                /\ includes (Some r) (JNum 1) = true
                /\ includes (Some r) (JNum 5) = false).
Proof.
  split; [reflexivity|].
  eexists; repeat split.
Qed.

(** C9.  When each of [lt], [lte], [gt], [gte] is falsy, [getRange] returns
    [undefined], and a cursor opened with it passes every key of the store.
    A falsy bound such as [0] or the empty string counts as no bound. *)
Theorem getRange_falsy_bounds_full_scan (o : options) :
  truthy (o_lt o) = false -> truthy (o_lte o) = false ->
  truthy (o_gt o) = false -> truthy (o_gte o) = false ->
  getRange o = None
  /\ eval_range (getRange o) = inr None
  /\ forall t, cursor_keys t None false = map fst t
               /\ cursor_keys t None true = rev (map fst t).
Proof.
  intros Hlt Hlte Hgt Hgte.
  assert (E : getRange o = None).
  { unfold getRange, js_or. now rewrite Hlte, Hlt, Hgte, Hgt. }
  rewrite E. repeat split; unfold cursor_keys; simpl.
  - induction t as [|rc t IH]; simpl; congruence.
  - f_equal. induction t as [|rc t IH]; simpl; congruence.
Qed.

Lemma getRange_falsy_bounds_full_scan_witness :
  let o := {| o_lt := JNum 0; o_lte := JStr ""; o_gt := JNull;
              o_gte := JNaN; o_limit := JUndefined; o_reverse := JUndefined |} in
  getRange o = None
  /\ eval_range (getRange o) = inr None
  /\ forall t, cursor_keys t None false = map fst t
               /\ cursor_keys t None true = rev (map fst t).
Proof.
  apply getRange_falsy_bounds_full_scan; reflexivity.
Defined.

(** ** Point operations *)

(** C3.  The claim: a point operation never rejects, a failure to create
    the transaction is resolved as [{err}].  On a database without the
    object store, or on a handle that [init] never ran on, [getStore]
    returns a rejected promise, which no caller looks at: [count], [has],
    [get], [put] and [del] then fail on [undefined] and their promise is
    rejected with a [TypeError]. *)
Theorem point_operations_reject_without_store :
  forall (loc : string) (key value : jsval) (hook_set : bool) (ev : outcome),
    let self := {| _loc := loc; _db := Some [] |} in
    let fresh := {| _loc := loc; _db := None |} in
    getStore (_db self) (_loc self) ReadWrite = RejectedPromise (Err NotFoundError)
    /\ settled (count fresh hook_set ev) = Rejected TypeError
    /\ settled (count self hook_set ev) = Rejected TypeError
    /\ settled (has self key hook_set ev) = Rejected TypeError
    /\ settled (get self key hook_set ev) = Rejected TypeError
    /\ settled (put self key value hook_set ev) = Rejected TypeError
    /\ settled (del self key hook_set ev) = Rejected TypeError.
Proof.
  intros; repeat split.
Qed.

(** C4.  The claim: every operation reports a transport error to
    [Indexed.onerror] when the hook is set.  [count] and [drop] resolve
    [{err}] and never call it, where [has], on the same failure, does. *)
Theorem count_and_drop_skip_the_hook :
  forall (loc : string) (t : table) (e : error),
    hook_calls (count (handle loc t) true (Failure e)) = []
    /\ settled (count (handle loc t) true (Failure e)) = Resolved (Err e)
    /\ drop (OpenError e) = ([], Resolved (Err e))
    /\ drop (OpenBlocked e) = ([], Resolved (Err e))
    /\ hook_calls (has (handle loc t) (JStr "k") true (Failure e)) = [e].
Proof.
  intros loc t e.
  destruct (objectStore_handle loc t) as [Hrw _].
  unfold count, has. rewrite Hrw. simpl. repeat split.
Qed.

(** C5.  With the store in place and the request answered by [success]:
    for a valid key without a record, [get] resolves [{err: NotFound}] and
    [has] resolves [{data: false}]; for a key with the record [(key, v)],
    [get] resolves [{data: v}] and [has] resolves [{data: true}]. *)
Theorem get_has_by_presence (self : Indexed) (t : table) (key : jsval) (hook_set : bool) :
  db_transaction (_db self) (_loc self) = inr t ->
  ordered t = true ->
  valid_key key = true ->
  ((forall v, ~ In (key, v) t) ->
     settled (get self key hook_set Success) = Resolved (Err NotFound)
     /\ settled (has self key hook_set Success) = Resolved (Data (JBool false)))
  /\ (forall v, In (key, v) t ->
        settled (get self key hook_set Success) = Resolved (Data v)
        /\ settled (has self key hook_set Success) = Resolved (Data (JBool true))).
Proof.
  intros Htx Ho Hk.
  unfold get, has, getStore. rewrite Htx, Hk. simpl.
  split.
  - intros Habs. now rewrite (store_get_absent t key Ho Hk Habs).
  - intros v Hin. pose proof (store_get_in t (key, v) Ho Hin) as E.
    simpl in E. now rewrite E.
Qed.

Lemma get_has_by_presence_witness :
  let self := handle "test" (table_of [(JStr "foo", JNum 100)]) in
  (settled (get self (JStr "quxx") false Success) = Resolved (Err NotFound)
   /\ settled (has self (JStr "quxx") false Success) = Resolved (Data (JBool false)))
  /\ (settled (get self (JStr "foo") false Success) = Resolved (Data (JNum 100))
      /\ settled (has self (JStr "foo") false Success) = Resolved (Data (JBool true))).
Proof.
  split.
  - apply (get_has_by_presence (handle "test" (table_of [(JStr "foo", JNum 100)]))
             (table_of [(JStr "foo", JNum 100)]) (JStr "quxx") false);
      try reflexivity.
    intros v [H|[]]. discriminate.
  - apply (get_has_by_presence (handle "test" (table_of [(JStr "foo", JNum 100)]))
             (table_of [(JStr "foo", JNum 100)]) (JStr "foo") false);
      try reflexivity.
    left. reflexivity.
Defined.

(** ** batch *)

Lemma eachOp_unrecognized (o : op) (q : list request) :
  recognized o = false -> eachOp o q = (q, inr tt).
Proof.
  unfold recognized, eachOp, bind, when. intros H.
  apply orb_false_iff in H as [-> ->]. reflexivity.
Qed.

Lemma eachOp_recognized (o : op) (q : list request) :
  recognized o = true ->
  eachOp o q = if valid_key (op_key o) then (q ++ [request_of o], inr tt)
               else (q, inl DataError).
Proof.
  unfold recognized, eachOp, request_of, bind, when, tx_put, tx_delete, enqueue, throw, ret.
  destruct (op_type o) as [| |b|n| |s]; simpl; try discriminate.
  destruct (s =? "put")%string eqn:Hput; simpl.
  - assert (Hdel : (s =? "del")%string = false).
    { apply String.eqb_eq in Hput. now subst s. }
    rewrite Hdel. now destruct (valid_key (op_key o)).
  - intros ->. now destruct (valid_key (op_key o)).
Qed.

Lemma forEach_skips (ops : list op) (q : list request) :
  forEach eachOp ops q = forEach eachOp (filter recognized ops) q.
Proof.
  revert q. induction ops as [|o rest IH]; intros q; [reflexivity|].
  simpl. destruct (recognized o) eqn:Hr.
  - simpl. unfold bind. destruct (eachOp o q) as [q' [e|[]]]; auto.
  - unfold bind. rewrite (eachOp_unrecognized o q Hr). apply IH.
Qed.

Lemma forEach_queue (ops : list op) (q : list request) :
  forallb recognized ops = true -> forEach eachOp ops q = queue_of q ops.
Proof.
  revert q. induction ops as [|o rest IH]; intros q; [reflexivity|].
  simpl. intros H. apply andb_true_iff in H as [Ho Hrest].
  unfold bind. rewrite (eachOp_recognized o q Ho).
  destruct (valid_key (op_key o)); auto.
Qed.

Lemma filter_recognized (ops : list op) :
  forallb recognized (filter recognized ops) = true.
Proof.
  induction ops as [|o rest IH]; [reflexivity|].
  simpl. destruct (recognized o) eqn:Hr; simpl; [now rewrite Hr|exact IH].
Qed.

Example batch_put_nop_del :
  let put_a := {| op_type := JStr "put"; op_key := JStr "a"; op_value := JNum 1 |} in
  let nop := {| op_type := JStr "nop"; op_key := JStr "x"; op_value := JUndefined |} in
  let del_b := {| op_type := JStr "del"; op_key := JStr "b"; op_value := JUndefined |} in
  forEach eachOp [put_a; nop; del_b] []
  = ([Put (JStr "a") (JNum 1); Delete (JStr "b")], inr tt).
Proof. reflexivity. Qed.

(** C7.  An element of a batch whose [type] is neither ['put'] nor ['del']
    leaves no trace: the queue of the transaction, the exception if any,
    and all [batch] does are those of the list without such elements, and
    the recognized operations are queued in list order. *)
Theorem batch_skips_unrecognized :
  forall (self : Indexed) (ops : list op) (hook_set : bool) (ev : tx_outcome),
    forEach eachOp ops [] = queue_of [] (filter recognized ops)
    /\ batch self ops hook_set ev = batch self (filter recognized ops) hook_set ev
    /\ (forall o q, eachOp o q = if recognized o then queue_of q [o] else (q, inr tt)).
Proof.
  intros self ops hook_set ev. repeat split.
  - rewrite forEach_skips. apply forEach_queue, filter_recognized.
  - unfold batch. now rewrite (forEach_skips ops []).
  - intros o q. destruct (recognized o) eqn:Ho.
    + rewrite (eachOp_recognized o q Ho). simpl. now destruct (valid_key (op_key o)).
    + now apply eachOp_unrecognized.
Qed.

(** ** The stream of [read] *)

Lemma events_of_app (a b : list effect) :
  events_of (a ++ b) = events_of a ++ events_of b.
Proof.
  induction a as [|[e|ev] a IH]; simpl; congruence.
Qed.

Lemma orderly_app_clean (a b : list event) :
  existsb terminal a = false -> orderly (a ++ b) = orderly b.
Proof.
  induction a as [|ev a IH]; simpl; [reflexivity|].
  intros H. apply orb_false_iff in H as [-> Ha]. auto.
Qed.

(** In an orderly sequence a terminal event is the last one. *)
Lemma orderly_last (pre post : list event) (ev : event) :
  orderly (pre ++ ev :: post) = true -> terminal ev = true -> post = [].
Proof.
  induction pre as [|x pre IH]; simpl; intros H Hev.
  - rewrite Hev in H. destruct post; [reflexivity|discriminate].
  - destruct (terminal x); [|auto].
    destruct pre; discriminate.
Qed.

Lemma move_move (s : stream) (c c' : Z) (p p' : phase) :
  move (move s c p) c' p' = move s c' p'.
Proof. reflexivity. Qed.

Section StreamFacts.

Variable StringToNumber : string -> option Z.
Variable h : handlers.
Variable hook_set : bool.

Local Abbreviation answer := (deliver StringToNumber h hook_set).
Local Abbreviation exec := (run StringToNumber h hook_set).

Lemma run_app (os1 os2 : list outcome) (s : stream) :
  exec (os1 ++ os2) s =
  (fst (exec os2 (fst (exec os1 s))), snd (exec os1 s) ++ snd (exec os2 (fst (exec os1 s)))).
Proof.
  revert s. induction os1 as [|o os1 IH]; intros s; simpl.
  - now destruct (exec os2 s).
  - destruct (answer o s) as [s1 t1]. rewrite IH.
    destruct (exec os1 s1) as [s2 t2]. simpl.
    now rewrite app_assoc.
Qed.

(** With no request pending the engine has no event to deliver. *)
Lemma run_quiet (os : list outcome) (s : stream) :
  s_phase s = Quiet -> exec os s = (s, []).
Proof.
  intros Hq. induction os as [|o os IH]; simpl; [reflexivity|].
  unfold deliver. rewrite Hq. now rewrite IH.
Qed.

(** One answer fires an orderly burst of events, and a terminal event
    leaves no request pending. *)
Lemma deliver_orderly (o : outcome) (s : stream) :
  orderly (events_of (snd (answer o s))) = true
  /\ (existsb terminal (events_of (snd (answer o s))) = true ->
      s_phase (fst (answer o s)) = Quiet).
Proof.
  unfold deliver, fire, global.
  destruct (s_phase s) as [[|k rest]|k rest|]; destruct o as [|e]; simpl;
    repeat match goal with
           | |- context [match ?x with _ => _ end] => destruct x; simpl
           end; auto; split; auto; discriminate.
Qed.

Lemma run_orderly (os : list outcome) (s : stream) :
  orderly (events_of (snd (exec os s))) = true
  /\ (existsb terminal (events_of (snd (exec os s))) = true ->
      s_phase (fst (exec os s)) = Quiet).
Proof.
  revert s. induction os as [|o os IH]; intros s; simpl.
  - split; [reflexivity|discriminate].
  - destruct (deliver_orderly o s) as [Ho Hq].
    destruct (answer o s) as [s1 t1]. simpl in Ho, Hq.
    destruct (existsb terminal (events_of t1)) eqn:Ht.
    + rewrite (run_quiet os s1 (Hq eq_refl)). simpl.
      rewrite app_nil_r, Ht. auto.
    + destruct (IH s1) as [Ho' Hq'].
      destruct (exec os s1) as [s2 t2]. simpl in *.
      rewrite events_of_app, existsb_app, Ht, orderly_app_clean by exact Ht.
      auto.
Qed.

End StreamFacts.

(** C8.  In every execution of a stream that [read] has set up, under any
    answers of the engine and whichever callbacks are attached, an
    [onerror] or [onend] is the last event: nothing follows it in the
    trace, and no further answer of the engine adds anything. *)
Theorem read_terminal_events_are_last
  (StringToNumber : string -> option Z) (self : Indexed) (opts : options) (s : stream)
  (h : handlers) (hook_set : bool) (os : list outcome)
  (pre post : list event) (ev : event) :
  read self opts = Resolved s ->
  events_of (snd (run StringToNumber h hook_set os s)) = pre ++ ev :: post ->
  terminal ev = true ->
  post = []
  /\ forall more, snd (run StringToNumber h hook_set (os ++ more) s)
                  = snd (run StringToNumber h hook_set os s).
Proof.
  intros _ Htrace Hev.
  destruct (run_orderly StringToNumber h hook_set os s) as [Ho Hq].
  split.
  - rewrite Htrace in Ho. exact (orderly_last pre post ev Ho Hev).
  - intros more. rewrite run_app. cbn [snd].
    rewrite (run_quiet StringToNumber h hook_set more).
    + apply app_nil_r.
    + apply Hq. rewrite Htrace, existsb_app. simpl. rewrite Hev.
      now rewrite orb_true_r.
Qed.

(** ** Streams the engine never fails *)

Lemma cursor_keys_records (t : table) (r : option key_range) (prev : bool) :
  cursor_keys t r prev = map fst (cursor_records t r prev).
Proof.
  unfold cursor_keys, cursor_records.
  assert (E : filter (includes r) (map fst t)
              = map fst (filter (fun rc => includes r (fst rc)) t)).
  { induction t as [|rc t IH]; simpl; [reflexivity|].
    destruct (includes r (fst rc)); simpl; congruence. }
  rewrite E. destruct prev; [now rewrite map_rev|reflexivity].
Qed.

Lemma cursor_records_in (t : table) (r : option key_range) (prev : bool) (rc : record) :
  In rc (cursor_records t r prev) -> In rc t.
Proof.
  unfold cursor_records. destruct prev; [rewrite <- in_rev|];
    intros H; apply filter_In in H; tauto.
Qed.

(** The secondary lookup at a cursor position returns the record there. *)
Lemma cursor_records_found (t : table) (r : option key_range) (prev : bool) :
  ordered t = true ->
  Forall (fun rc => store_get (fst rc) t = Some rc) (cursor_records t r prev).
Proof.
  intros Ho. apply Forall_forall. intros rc Hin.
  apply store_get_in; [exact Ho|exact (cursor_records_in t r prev rc Hin)].
Qed.

Section Successes.

Variable StringToNumber : string -> option Z.
Variable h : handlers.
Variable hook_set : bool.

Local Abbreviation exec := (run StringToNumber h hook_set).

(** Without a limit, two answers per record and one more for the
    exhausted cursor stream every record and end the stream. *)
Lemma run_unlimited (recs : list record) :
  forall s : stream,
    truthy (s_limit s) = false ->
    s_phase s = CursorPending (map fst recs) ->
    Forall (fun rc => store_get (fst rc) (s_store s) = Some rc) recs ->
    exec (repeat Success (2 * List.length recs + 1)) s
    = (move s (s_count s) Quiet, flat_map (emit h) recs ++ fire (onend h) Onend).
Proof.
  induction recs as [|[k v] recs IH]; intros s Hlim Hph Hfound.
  - simpl. unfold deliver. rewrite Hph. simpl. now rewrite app_nil_r.
  - replace (2 * List.length ((k, v) :: recs) + 1)
      with (S (S (2 * List.length recs + 1))) by (cbn [List.length]; lia).
    inversion Hfound as [|rc l Hk Hrest]; subst. simpl in Hk.
    cbn [repeat run]. unfold deliver at 1. rewrite Hph. cbn [map fst].
    unfold deliver at 1. cbn [s_phase move s_store s_limit s_count].
    rewrite Hk, Hlim.
    rewrite (IH (move (move s (s_count s) (LookupPending k (map fst recs)))
                      (s_count s) (CursorPending (map fst recs)))); auto.
    cbn [flat_map app]. now rewrite <- app_assoc.
Qed.

(** With [limit] a number [N] and [m + 1] records still to go, two answers
    per record stream [m + 1] records and end the stream, the cursor
    standing on the last of them. *)
Lemma run_limited (m : nat) :
  forall (recs : list record) (s : stream) (N : Z),
    s_limit s = JNum N ->
    (0 <= s_count s)%Z ->
    (N - s_count s = Z.of_nat (S m))%Z ->
    s_phase s = CursorPending (map fst recs) ->
    S m <= List.length recs ->
    Forall (fun rc => store_get (fst rc) (s_store s) = Some rc) recs ->
    exec (repeat Success (2 * S m)) s
    = (move s N Quiet, flat_map (emit h) (firstn (S m) recs) ++ fire (onend h) Onend).
Proof.
  induction m as [|m IH]; intros recs s N Hlim Hc HN Hph Hlen Hfound;
    (destruct recs as [|[k v] recs]; [simpl in Hlen; lia|]);
    inversion Hfound as [|rc l Hk Hrest]; subst; simpl in Hk;
    assert (Htruthy : truthy (JNum N) = true)
      by (simpl; apply negb_true_iff, Z.eqb_neq; lia).
  - cbn [repeat run Nat.mul Nat.add]. unfold deliver at 1. rewrite Hph. cbn [map fst].
    unfold deliver at 1. cbn [s_phase move s_store s_limit s_count].
    rewrite Hk, Hlim, Htruthy. unfold at_limit. cbn [ToNumber].
    replace (s_count s =? N - 1)%Z with true by (symmetry; apply Z.eqb_eq; lia).
    cbn [firstn flat_map]. rewrite move_move.
    replace (s_count s + 1)%Z with N by lia.
    unfold emit. now rewrite !app_nil_r.
  - replace (2 * S (S m)) with (S (S (2 * S m))) by lia.
    cbn [repeat run]. unfold deliver at 1. rewrite Hph. cbn [map fst].
    unfold deliver at 1. cbn [s_phase move s_store s_limit s_count].
    rewrite Hk, Hlim, Htruthy. unfold at_limit. cbn [ToNumber].
    replace (s_count s =? N - 1)%Z with false by (symmetry; apply Z.eqb_neq; lia).
    rewrite move_move.
    rewrite (IH recs (move s (s_count s + 1) (CursorPending (map fst recs))) N);
      cbn [s_phase move s_store s_limit s_count]; auto; try lia.
    + rewrite move_move. change (firstn (S (S m)) ((k, v) :: recs))
        with ((k, v) :: firstn (S m) recs).
      cbn [flat_map app]. now rewrite <- app_assoc.
    + simpl in Hlen. lia.
Qed.

(** A falsy limit is never looked at again: two streams that differ in
    nothing else fire the same calls. *)
Lemma run_falsy_limit (os : list outcome) :
  forall s s' : stream,
    truthy (s_limit s) = false -> truthy (s_limit s') = false ->
    s_store s = s_store s' -> s_phase s = s_phase s' ->
    snd (exec os s) = snd (exec os s').
Proof.
  induction os as [|o os IH]; intros s s' Hl Hl' Hst Hph; [reflexivity|].
  cbn [run].
  assert (Hstep : snd (deliver StringToNumber h hook_set o s)
                  = snd (deliver StringToNumber h hook_set o s')
                  /\ s_store (fst (deliver StringToNumber h hook_set o s))
                     = s_store (fst (deliver StringToNumber h hook_set o s'))
                  /\ s_phase (fst (deliver StringToNumber h hook_set o s))
                     = s_phase (fst (deliver StringToNumber h hook_set o s'))
                  /\ truthy (s_limit (fst (deliver StringToNumber h hook_set o s))) = false
                  /\ truthy (s_limit (fst (deliver StringToNumber h hook_set o s'))) = false).
  { unfold deliver. rewrite <- Hph, <- Hst, Hl, Hl'.
    destruct (s_phase s) as [[|k rest]|k rest|] eqn:E; destruct o as [|e]; simpl;
      try match goal with
          | |- context [store_get ?k ?t] => destruct (store_get k t) as [[k' v']|]; simpl
          end;
      repeat split; auto; congruence. }
  destruct Hstep as (Ht & Hst1 & Hph1 & Hl1 & Hl1').
  specialize (IH _ _ Hl1 Hl1' Hst1 Hph1).
  destruct (deliver StringToNumber h hook_set o s) as [s1 t1].
  destruct (deliver StringToNumber h hook_set o s') as [s1' t1'].
  simpl in *. destruct (exec os s1), (exec os s1'). simpl in *. congruence.
Qed.

End Successes.

Lemma flat_map_fire (h : handlers) (recs : list record) :
  ondata h = true -> flat_map (emit h) recs = map (fun rc => Fire (data rc)) recs.
Proof.
  intros Hd. induction recs as [|rc recs IH]; [reflexivity|].
  simpl. unfold emit at 1. rewrite Hd. simpl. now f_equal.
Qed.

(** What [read] resolves with when the transaction and the range are
    accepted. *)
Lemma read_resolved (self : Indexed) (opts : options) (t : table)
      (range : option key_range) :
  db_transaction (_db self) (_loc self) = inr t ->
  eval_range (getRange opts) = inr range ->
  read self opts
  = Resolved {| s_store := t;
                s_limit := o_limit opts;
                s_count := 0;
                s_phase := CursorPending
                             (map fst (cursor_records t range (truthy (o_reverse opts)))) |}.
Proof.
  intros Htx Hr. unfold read, getStore. rewrite Htx. simpl. rewrite Hr.
  now rewrite cursor_keys_records.
Qed.

(** C2.  With [limit] a number [N >= 1], a range holding more than [N]
    records, both callbacks attached and an engine that answers every
    request with success: after the [2 N] answers to the [N] cursor
    positions and their lookups, the calls made are [ondata] for the first
    [N] records in cursor order, then [onend]; no request is pending then
    (the cursor was not advanced), and whatever the engine might answer
    further changes nothing. *)
Theorem read_limit_stops_after_n
  (StringToNumber : string -> option Z) (self : Indexed) (t : table)
  (opts : options) (range : option key_range) (N : Z) (h : handlers) (hook_set : bool) :
  db_transaction (_db self) (_loc self) = inr t ->
  ordered t = true ->
  eval_range (getRange opts) = inr range ->
  o_limit opts = JNum N ->
  (1 <= N)%Z ->
  (N < Z.of_nat (List.length (cursor_records t range (truthy (o_reverse opts)))))%Z ->
  ondata h = true ->
  onend h = true ->
  exists s,
    read self opts = Resolved s
    /\ let recs := cursor_records t range (truthy (o_reverse opts)) in
       let answers := repeat Success (2 * Z.to_nat N) in
       snd (run StringToNumber h hook_set answers s)
       = map (fun rc => Fire (data rc)) (firstn (Z.to_nat N) recs) ++ [Fire Onend]
       /\ List.length (firstn (Z.to_nat N) recs) = Z.to_nat N
       /\ s_phase (fst (run StringToNumber h hook_set answers s)) = Quiet
       /\ forall more,
            snd (run StringToNumber h hook_set (answers ++ more) s)
            = snd (run StringToNumber h hook_set answers s).
Proof.
  intros Htx Ho Hr Hlim HN Hlen Hd He.
  eexists. split; [exact (read_resolved self opts t range Htx Hr)|].
  set (recs := cursor_records t range (truthy (o_reverse opts))) in *.
  set (s := {| s_store := t; s_limit := o_limit opts; s_count := 0;
               s_phase := CursorPending (map fst recs) |}).
  destruct (Z.to_nat N) as [|m] eqn:Hm; [lia|].
  assert (Hrun : run StringToNumber h hook_set (repeat Success (2 * S m)) s
                 = (move s N Quiet,
                    map (fun rc => Fire (data rc)) (firstn (S m) recs) ++ [Fire Onend])).
  { rewrite (run_limited StringToNumber h hook_set m recs s N); simpl; auto; try lia.
    - rewrite He. now rewrite flat_map_fire.
    - apply cursor_records_found, Ho. }
  cbv zeta. rewrite Hrun. cbn [fst snd move s_phase].
  repeat split.
  - apply firstn_length_le. lia.
  - intros more. rewrite run_app, Hrun. cbn [fst snd].
    rewrite run_quiet by reflexivity. apply app_nil_r.
Qed.

Lemma read_limit_stops_after_n_witness :
  exists s,
    read (handle "test" four_rows) (limit_only 2) = Resolved s
    /\ snd (run (decimal 0) all_handlers false (repeat Success 4) s)
       = [Fire (Ondata (JStr "a") (JNum 1)); Fire (Ondata (JStr "b") (JNum 2)); Fire Onend]
    /\ List.length [(JStr "a", JNum 1); (JStr "b", JNum 2)] = 2
    /\ s_phase (fst (run (decimal 0) all_handlers false (repeat Success 4) s)) = Quiet
    /\ forall more,
         snd (run (decimal 0) all_handlers false (repeat Success 4 ++ more) s)
         = snd (run (decimal 0) all_handlers false (repeat Success 4) s).
Proof.
  apply (read_limit_stops_after_n (decimal 0) (handle "test" four_rows) four_rows
           (limit_only 2) None 2%Z all_handlers false);
    try reflexivity; try lia; vm_compute; reflexivity.
Defined.

(** C10.  With a falsy [limit] ([0], [undefined], [null], ...) the limit
    test is never entered: under any answers and any callbacks the stream
    makes the calls of the same [read] without [limit], and when the engine
    answers every request with success it streams every record of the range
    and then ends. *)
Theorem read_falsy_limit_streams_all
  (StringToNumber : string -> option Z) (self : Indexed) (t : table)
  (opts : options) (range : option key_range) :
  truthy (o_limit opts) = false ->
  db_transaction (_db self) (_loc self) = inr t ->
  ordered t = true ->
  eval_range (getRange opts) = inr range ->
  exists s s0,
    read self opts = Resolved s
    /\ read self (without_limit opts) = Resolved s0
    /\ (forall h hook_set os,
          snd (run StringToNumber h hook_set os s)
          = snd (run StringToNumber h hook_set os s0))
    /\ (forall hook_set,
          let recs := cursor_records t range (truthy (o_reverse opts)) in
          snd (run StringToNumber all_handlers hook_set
                   (repeat Success (2 * List.length recs + 1)) s)
          = map (fun rc => Fire (data rc)) recs ++ [Fire Onend]).
Proof.
  intros Hlim Htx Ho Hr.
  assert (Hr0 : eval_range (getRange (without_limit opts)) = inr range) by exact Hr.
  do 2 eexists.
  split; [exact (read_resolved self opts t range Htx Hr)|].
  split; [exact (read_resolved self (without_limit opts) t range Htx Hr0)|].
  split.
  - intros h hook_set os. now apply run_falsy_limit.
  - intros hook_set recs.
    rewrite (run_unlimited StringToNumber all_handlers hook_set recs);
      [ | exact Hlim | reflexivity | apply cursor_records_found, Ho ].
    cbn [snd]. now rewrite flat_map_fire.
Qed.

Lemma read_falsy_limit_streams_all_witness :
  exists s s0,
    read (handle "test" four_rows) (limit_only 0) = Resolved s
    /\ read (handle "test" four_rows) (without_limit (limit_only 0)) = Resolved s0
    /\ (forall h hook_set os,
          snd (run (decimal 0) h hook_set os s) = snd (run (decimal 0) h hook_set os s0))
    /\ (forall hook_set : bool,
          snd (run (decimal 0) all_handlers hook_set (repeat Success 9) s)
          = [Fire (Ondata (JStr "a") (JNum 1)); Fire (Ondata (JStr "b") (JNum 2));
             Fire (Ondata (JStr "c") (JNum 3)); Fire (Ondata (JStr "d") (JNum 4));
             Fire Onend]).
Proof.
  apply (read_falsy_limit_streams_all (decimal 0) (handle "test" four_rows) four_rows
           (limit_only 0) None); reflexivity.
Defined.

(** ** The map of [readAll] *)

Lemma same_value_zero_eq (a b : jsval) : same_value_zero a b = true <-> a = b.
Proof.
  destruct a, b; simpl; split; intros H; try discriminate; try reflexivity.
  - apply Bool.eqb_prop in H. congruence.
  - injection H as ->. apply Bool.eqb_reflx.
  - apply Z.eqb_eq in H. congruence.
  - injection H as ->. apply Z.eqb_refl.
  - apply String.eqb_eq in H. congruence.
  - injection H as ->. apply String.eqb_refl.
Qed.

Lemma same_value_zero_neq (a b : jsval) : same_value_zero a b = false <-> a <> b.
Proof.
  rewrite <- same_value_zero_eq. destruct (same_value_zero a b); intuition congruence.
Qed.

(** [m.get(k)] after [m.set(k', v)]. *)
Lemma map_get_set (m : jsmap) (k k' v : jsval) :
  map_get k (map_set k' v m) = if same_value_zero k' k then Some v else map_get k m.
Proof.
  induction m as [|[k0 v0] m IH]; simpl.
  - reflexivity.
  - destruct (same_value_zero k0 k') eqn:E0; simpl.
    + apply same_value_zero_eq in E0. subst k0.
      now destruct (same_value_zero k' k).
    + destruct (same_value_zero k0 k) eqn:E1; [|exact IH].
      apply same_value_zero_eq in E1. apply same_value_zero_neq in E0.
      assert (E2 : same_value_zero k' k = false)
        by (apply same_value_zero_neq; congruence).
      now rewrite E2.
Qed.

(** Setting a key the map does not hold appends an entry. *)
Lemma map_set_fresh (m : jsmap) (k v : jsval) :
  ~ In k (map fst m) -> map_set k v m = m ++ [(k, v)].
Proof.
  induction m as [|[k0 v0] m IH]; simpl; [reflexivity|].
  intros Hn. destruct (same_value_zero k0 k) eqn:E.
  - apply same_value_zero_eq in E. tauto.
  - rewrite IH; tauto.
Qed.

Lemma rows_of_snoc (ds : list record) (rc : record) :
  rows_of (ds ++ [rc]) = map_set (fst rc) (snd rc) (rows_of ds).
Proof.
  unfold rows_of. now rewrite fold_left_app.
Qed.

(** Each key is mapped to the value delivered last for it. *)
Lemma rows_of_last (ds : list record) (k : jsval) :
  map_get k (rows_of ds) = last_value k ds.
Proof.
  induction ds as [|rc ds IH] using rev_ind; [reflexivity|].
  rewrite rows_of_snoc, map_get_set. unfold last_value.
  rewrite rev_app_distr. simpl.
  destruct (same_value_zero (fst rc) k); [reflexivity|exact IH].
Qed.

(** Pairs with distinct keys are kept as they come. *)
Lemma rows_of_distinct (ds : list record) :
  NoDup (map fst ds) -> rows_of ds = ds.
Proof.
  induction ds as [|rc ds IH] using rev_ind; [reflexivity|].
  rewrite map_app. simpl. intros Hnd.
  rewrite rows_of_snoc, IH by exact (NoDup_app_remove_r _ _ Hnd).
  rewrite map_set_fresh; [now destruct rc|].
  apply NoDup_remove_2 with (l' := []) in Hnd. now rewrite app_nil_r in Hnd.
Qed.

Lemma gather_fold (hook_set : bool) (t : list effect) :
  forall g : gathering,
    g_rows (fold_left (gather hook_set) t g)
    = fold_left (fun m rc => map_set (fst rc) (snd rc) m) (datas (events_of t)) (g_rows g)
    /\ g_resolved (fold_left (gather hook_set) t g)
       = fold_left settle (events_of t) (g_resolved g).
Proof.
  induction t as [|x t IH]; intros g; [simpl; auto|].
  cbn [fold_left]. destruct (IH (gather hook_set g x)) as [E1 E2].
  rewrite E1, E2. destruct x as [e|[k v|e|]]; simpl; auto.
Qed.

Lemma settle_orderly (evs : list event) :
  orderly evs = true ->
  (In Onend evs -> fold_left settle evs None = Some WithRows)
  /\ (forall e, In (Onerror e) evs -> fold_left settle evs None = Some (WithErr e))
  /\ ((forall ev, In ev evs -> terminal ev = false) -> fold_left settle evs None = None).
Proof.
  induction evs as [|ev rest IH]; simpl.
  - intros _. repeat split; tauto.
  - destruct ev as [k v|e|]; simpl.
    + intros Ho. destruct (IH Ho) as (Hend & Herr & Hnone). repeat split.
      * intros [H|H]; [discriminate|auto].
      * intros e [H|H]; [discriminate|auto].
      * intros H. apply Hnone. auto.
    + destruct rest; [|discriminate]. intros _. repeat split.
      * intros [H|[]]. discriminate.
      * intros e' [H|[]]. now injection H as ->.
      * intros H. specialize (H (Onerror e) (or_introl eq_refl)). discriminate.
    + destruct rest; [|discriminate]. intros _. repeat split.
      * intros e' [H|[]]. discriminate.
      * intros H. specialize (H Onend (or_introl eq_refl)). discriminate.
Qed.

Lemma datas_app (a b : list event) : datas (a ++ b) = datas a ++ datas b.
Proof.
  induction a as [|[k v|e|] a IH]; simpl; auto. now rewrite IH.
Qed.

Lemma ordered_keys_distinct (t : table) : ordered t = true -> NoDup (map fst t).
Proof.
  induction t as [|[k v] rest IH]; simpl; [constructor|].
  intros Ho. apply andb_true_iff in Ho as [Ho Hrest].
  apply andb_true_iff in Ho as [_ Hlt].
  constructor; [|auto].
  intros Hin. apply in_map_iff in Hin as [rc [Hk Hin]].
  rewrite forallb_forall in Hlt. specialize (Hlt rc Hin).
  rewrite Hk, key_compare_refl in Hlt. discriminate.
Qed.

Lemma cursor_keys_distinct (t : table) (r : option key_range) (prev : bool) :
  ordered t = true -> NoDup (cursor_keys t r prev).
Proof.
  intros Ho. unfold cursor_keys.
  pose proof (NoDup_filter (includes r) (ordered_keys_distinct t Ho)) as Hnd.
  destruct prev; [now apply NoDup_rev|exact Hnd].
Qed.

Lemma firstn_distinct (n : nat) (l : list jsval) : NoDup l -> NoDup (firstn n l).
Proof.
  intros H. rewrite <- (firstn_skipn n l) in H. exact (NoDup_app_remove_r _ _ H).
Qed.

Section Prefix.

Variable StringToNumber : string -> option Z.
Variable h : handlers.
Variable hook_set : bool.
Hypothesis ondata_set : ondata h = true.

Local Abbreviation answer := (deliver StringToNumber h hook_set).
Local Abbreviation exec := (run StringToNumber h hook_set).

(** An answer delivers nothing and leaves the positions as they are, or
    ends the stream, or delivers the record of the next position. *)
Lemma deliver_progress (o : outcome) (s : stream) :
  lookups_hit s ->
  s_store (fst (answer o s)) = s_store s
  /\ ((map fst (datas (events_of (snd (answer o s)))) = []
       /\ pending_keys (s_phase (fst (answer o s))) = pending_keys (s_phase s))
      \/ (s_phase (fst (answer o s)) = Quiet
          /\ exists n, map fst (datas (events_of (snd (answer o s))))
                       = firstn n (pending_keys (s_phase s)))
      \/ (exists k rest,
            pending_keys (s_phase s) = k :: rest
            /\ map fst (datas (events_of (snd (answer o s)))) = [k]
            /\ pending_keys (s_phase (fst (answer o s))) = rest)).
Proof.
  unfold lookups_hit, deliver. intros Hhit.
  destruct (s_phase s) as [[|k rest]|k rest|] eqn:Hph; destruct o as [|e];
    cbn [pending_keys] in *.
  - split; [reflexivity|]. right; left. split; [reflexivity|].
    exists 0. now destruct (onend h).
  - split; [reflexivity|]. right; left. split; [reflexivity|].
    exists 0. now destruct hook_set, (onerror h).
  - split; [reflexivity|]. left. split; reflexivity.
  - split; [reflexivity|]. right; left. split; [reflexivity|].
    exists 0. now destruct hook_set, (onerror h).
  - inversion Hhit as [|k0 l [v Hk] Hrest]; subst. rewrite Hk, ondata_set.
    destruct (truthy (s_limit s)); [destruct (at_limit StringToNumber (s_limit s) (s_count s))|];
      (split; [reflexivity|]).
    + right; left. split; [reflexivity|]. exists 1. now destruct (onend h).
    + right; right. exists k, rest. repeat split.
    + right; right. exists k, rest. repeat split.
  - split; [reflexivity|]. right; left. split; [reflexivity|].
    exists 0. now destruct hook_set, (onerror h).
  - split; [reflexivity|]. left. cbn [fst snd]. rewrite Hph. split; reflexivity.
  - split; [reflexivity|]. left. cbn [fst snd]. rewrite Hph. split; reflexivity.
Qed.

(** The keys delivered are an initial segment of the pending positions. *)
Lemma run_prefix (os : list outcome) :
  forall s : stream,
    lookups_hit s ->
    exists n, map fst (datas (events_of (snd (exec os s))))
              = firstn n (pending_keys (s_phase s)).
Proof.
  induction os as [|o os IH]; intros s Hhit; [now exists 0|].
  cbn [run].
  destruct (deliver_progress o s Hhit) as [Hst [[Hd Hp]|[[Hq [n Hn]]|(k & rest & Hp & Hd & Hp')]]];
    destruct (answer o s) as [s1 t1] eqn:Hstep; cbn [fst snd] in *.
  - destruct (IH s1) as [n Hn].
    { unfold lookups_hit. rewrite Hst, Hp. exact Hhit. }
    exists n. destruct (exec os s1) as [s2 t2]. cbn [snd] in *.
    now rewrite events_of_app, datas_app, map_app, Hd, Hn, Hp.
  - exists n. rewrite (run_quiet StringToNumber h hook_set os s1 Hq).
    now rewrite app_nil_r.
  - destruct (IH s1) as [n Hn].
    { unfold lookups_hit in *. rewrite Hst, Hp'. rewrite Hp in Hhit.
      now inversion Hhit. }
    exists (S n). destruct (exec os s1) as [s2 t2]. cbn [snd] in *.
    now rewrite events_of_app, datas_app, map_app, Hd, Hn, Hp, Hp'.
Qed.

End Prefix.

(** A stream that [read] resolved with stands before the first position of
    a cursor over the store of the handle. *)
Lemma read_inv (self : Indexed) (opts : options) (s : stream) :
  read self opts = Resolved s ->
  exists t range,
    db_transaction (_db self) (_loc self) = inr t
    /\ eval_range (getRange opts) = inr range
    /\ s = {| s_store := t; s_limit := o_limit opts; s_count := 0;
              s_phase := CursorPending (cursor_keys t range (truthy (o_reverse opts))) |}.
Proof.
  unfold read, getStore.
  destruct (db_transaction (_db self) (_loc self)) as [e|t]; simpl; [discriminate|].
  destruct (eval_range (getRange opts)) as [e|range]; [discriminate|].
  intros H. injection H as <-. now exists t, range.
Qed.

Lemma read_lookups_hit (self : Indexed) (opts : options) (s : stream) :
  read self opts = Resolved s -> ordered (s_store s) = true ->
  lookups_hit s /\ NoDup (pending_keys (s_phase s)).
Proof.
  intros Hread Ho. apply read_inv in Hread as (t & range & _ & _ & ->).
  simpl in *. split; [|now apply cursor_keys_distinct].
  unfold lookups_hit. simpl. rewrite cursor_keys_records.
  apply Forall_forall. intros k Hin. apply in_map_iff in Hin as [[k' v] [<- Hin]].
  exists v. apply (store_get_in t (k', v) Ho).
  exact (cursor_records_in _ _ _ _ Hin).
Qed.

(** C6.  [readAll] hands every pair that [read] delivers to the [set] of
    one map and resolves with that map when [onend] fires, with [{err}]
    when [onerror] fires, and stays pending before either.  The map sends
    each key to the value delivered last for it; pairs with distinct keys,
    which is what a cursor over an object store delivers, are its entries
    in the order of delivery. *)
Theorem readAll_gathers_the_stream
  (StringToNumber : string -> option Z) (self : Indexed) (opts : options)
  (hook_set : bool) (os : list outcome) (s : stream) :
  read self opts = Resolved s ->
  let evs := events_of (snd (run StringToNumber all_handlers hook_set os s)) in
  let rows := rows_of (datas evs) in
  let p := settled (readAll StringToNumber self opts hook_set os) in
  (In Onend evs -> p = Resolved (Rows rows))
  /\ (forall e, In (Onerror e) evs -> p = Resolved (Err e))
  /\ ((forall ev, In ev evs -> terminal ev = false) -> p = Pending)
  /\ (forall k, map_get k rows = last_value k (datas evs))
  /\ (NoDup (map fst (datas evs)) -> rows = datas evs)
  /\ (ordered (s_store s) = true -> rows = datas evs).
Proof.
  intros Hread evs rows p.
  assert (Hp : p = match fold_left settle evs None with
                   | None => Pending
                   | Some WithRows => Resolved (Rows rows)
                   | Some (WithErr e) => Resolved (Err e)
                   end).
  { subst p. unfold readAll. rewrite Hread. cbn [settled].
    destruct (gather_fold hook_set (snd (run StringToNumber all_handlers hook_set os s))
                {| g_rows := []; g_resolved := None; g_hook := [] |}) as [E1 E2].
    rewrite E1, E2. reflexivity. }
  destruct (run_orderly StringToNumber all_handlers hook_set os s) as [Ho _].
  destruct (settle_orderly evs Ho) as (Hend & Herr & Hnone).
  repeat split.
  - intros H. now rewrite Hp, (Hend H).
  - intros e H. now rewrite Hp, (Herr e H).
  - intros H. now rewrite Hp, (Hnone H).
  - intros k. apply rows_of_last.
  - apply rows_of_distinct.
  - intros Hord. apply rows_of_distinct.
    destruct (read_lookups_hit self opts s Hread Hord) as [Hhit Hnd].
    destruct (run_prefix StringToNumber all_handlers hook_set eq_refl os s Hhit) as [n Hn].
    subst evs. rewrite Hn. now apply firstn_distinct.
Qed.

Lemma readAll_gathers_the_stream_witness :
  settled (readAll (decimal 0) (handle "test" four_rows) no_options false (repeat Success 9))
  = Resolved (Rows [(JStr "a", JNum 1); (JStr "b", JNum 2);
                    (JStr "c", JNum 3); (JStr "d", JNum 4)])
  /\ settled (readAll (decimal 0) (handle "test" four_rows) no_options false
                      [Success; Success; Failure (EngineError 7)])
     = Resolved (Err (EngineError 7)).
Proof.
  split.
  - apply (readAll_gathers_the_stream (decimal 0) (handle "test" four_rows) no_options
             false (repeat Success 9) _ eq_refl).
    vm_compute. tauto.
  - apply (readAll_gathers_the_stream (decimal 0) (handle "test" four_rows) no_options
             false [Success; Success; Failure (EngineError 7)] _ eq_refl).
    vm_compute. tauto.
Defined.

Lemma read_terminal_events_are_last_witness :
  let s := {| s_store := four_rows; s_limit := JNum 2; s_count := 0;
              s_phase := CursorPending [JStr "a"; JStr "b"; JStr "c"; JStr "d"] |} in
  @nil event = []
  /\ forall more, snd (run (decimal 0) all_handlers false (repeat Success 4 ++ more) s)
                  = snd (run (decimal 0) all_handlers false (repeat Success 4) s).
Proof.
  apply (read_terminal_events_are_last (decimal 0) (handle "test" four_rows) (limit_only 2)
           _ all_handlers false (repeat Success 4)
           [Ondata (JStr "a") (JNum 1); Ondata (JStr "b") (JNum 2)] [] Onend);
    reflexivity.
Defined.

(** * Further properties of the operations *)

(** ** The store under [put] and [delete] *)

Lemma key_compare_neq (a b : jsval) :
  valid_key a = true -> valid_key b = true -> a <> b -> key_compare a b <> Eq.
Proof.
  intros Ha Hb Hn Hc. apply Hn. now apply key_compare_eq.
Qed.

Lemma store_put_has (k v : jsval) (t : table) : In (k, v) (store_put k v t).
Proof.
  induction t as [|[k' v'] rest IH]; simpl; [now left|].
  destruct (key_compare k k'); simpl; auto.
Qed.

Lemma store_get_put_same (k v : jsval) (t : table) :
  valid_key k = true -> ordered t = true ->
  store_get k (store_put k v t) = Some (k, v).
Proof.
  intros Hk Ho.
  apply (store_get_in (store_put k v t) (k, v));
    [now apply store_put_ordered|apply store_put_has].
Qed.

Lemma store_get_put_other (k k' v : jsval) (t : table) :
  valid_key k = true -> valid_key k' = true -> k' <> k -> ordered t = true ->
  store_get k' (store_put k v t) = store_get k' t.
Proof.
  intros Hk Hk' Hn.
  pose proof (key_compare_neq k' k Hk' Hk Hn) as Hne.
  induction t as [|[k0 v0] rest IH]; simpl; intros Ho.
  - now destruct (key_compare k' k).
  - apply andb_true_iff in Ho as [Ho Hrest].
    apply andb_true_iff in Ho as [Hk0 _].
    destruct (key_compare k k0) eqn:Hc; simpl.
    + apply key_compare_eq in Hc; [|exact Hk|exact Hk0]. subst k0.
      now destruct (key_compare k' k).
    + now destruct (key_compare k' k).
    + destruct (key_compare k' k0); auto.
Qed.

Lemma store_delete_gone (k v : jsval) (t : table) :
  valid_key k = true -> ordered t = true -> ~ In (k, v) (store_delete k t).
Proof.
  intros Hk. induction t as [|[k0 v0] rest IH]; simpl; [tauto|].
  intros Ho. apply andb_true_iff in Ho as [Ho Hrest].
  apply andb_true_iff in Ho as [Hk0 Hlt].
  destruct (key_compare k k0) eqn:Hc; simpl.
  - apply key_compare_eq in Hc; [|exact Hk|exact Hk0]. subst k0.
    intros Hin. rewrite forallb_forall in Hlt. specialize (Hlt _ Hin).
    simpl in Hlt. now rewrite key_compare_refl in Hlt.
  - intros [E|Hin]; [|now apply IH].
    injection E as -> _. rewrite key_compare_refl in Hc. discriminate.
  - intros [E|Hin]; [|now apply IH].
    injection E as -> _. rewrite key_compare_refl in Hc. discriminate.
Qed.

Lemma store_get_delete_same (k : jsval) (t : table) :
  valid_key k = true -> ordered t = true -> store_get k (store_delete k t) = None.
Proof.
  intros Hk Ho. apply store_get_absent; [now apply store_delete_ordered|exact Hk|].
  intros v. now apply store_delete_gone.
Qed.

Lemma store_get_delete_other (k k' : jsval) (t : table) :
  valid_key k = true -> valid_key k' = true -> k' <> k -> ordered t = true ->
  store_get k' (store_delete k t) = store_get k' t.
Proof.
  intros Hk Hk' Hn.
  pose proof (key_compare_neq k' k Hk' Hk Hn) as Hne.
  induction t as [|[k0 v0] rest IH]; simpl; intros Ho; [reflexivity|].
  apply andb_true_iff in Ho as [Ho Hrest].
  apply andb_true_iff in Ho as [Hk0 _].
  destruct (key_compare k k0) eqn:Hc; simpl.
  - apply key_compare_eq in Hc; [|exact Hk|exact Hk0]. subst k0.
    now destruct (key_compare k' k).
  - destruct (key_compare k' k0); auto.
  - destruct (key_compare k' k0); auto.
Qed.

(** Below the first key of an ordered store there is nothing to find. *)
Lemma store_get_below (k k0 : jsval) (rest : table) :
  key_compare k k0 = Lt ->
  forallb (fun rc => match key_compare k0 (fst rc) with Lt => true | _ => false end) rest
  = true ->
  store_get k rest = None.
Proof.
  intros Hc Hlt. induction rest as [|[k1 v1] rest IH]; simpl in *; [reflexivity|].
  apply andb_true_iff in Hlt as [H1 Hlt].
  destruct (key_compare k0 k1) eqn:Hc1; try discriminate.
  rewrite (key_compare_trans _ _ _ Hc Hc1). auto.
Qed.

Lemma store_put_length (k v : jsval) (t : table) :
  valid_key k = true -> ordered t = true ->
  List.length (store_put k v t)
  = match store_get k t with
    | Some _ => List.length t
    | None => S (List.length t)
    end.
Proof.
  intros Hk. induction t as [|[k0 v0] rest IH]; simpl; intros Ho; [reflexivity|].
  apply andb_true_iff in Ho as [Ho Hrest].
  apply andb_true_iff in Ho as [Hk0 Hlt].
  destruct (key_compare k k0) eqn:Hc; simpl.
  - reflexivity.
  - now rewrite (store_get_below k k0 rest Hc Hlt).
  - rewrite (IH Hrest). now destruct (store_get k rest).
Qed.

Lemma store_delete_length (k : jsval) (t : table) :
  valid_key k = true -> ordered t = true ->
  List.length (store_delete k t)
  = match store_get k t with
    | Some _ => pred (List.length t)
    | None => List.length t
    end.
Proof.
  intros Hk. induction t as [|[k0 v0] rest IH]; simpl; intros Ho; [reflexivity|].
  apply andb_true_iff in Ho as [Ho Hrest].
  apply andb_true_iff in Ho as [Hk0 Hlt].
  destruct (key_compare k k0) eqn:Hc; simpl.
  - reflexivity.
  - now rewrite (IH Hrest), (store_get_below k k0 rest Hc Hlt).
  - rewrite (IH Hrest). destruct (store_get k rest) as [rc|] eqn:Hg; [|reflexivity].
    destruct rest; [discriminate|reflexivity].
Qed.

Lemma store_delete_absent (k : jsval) (t : table) :
  store_get k t = None -> store_delete k t = t.
Proof.
  induction t as [|[k0 v0] rest IH]; simpl; [reflexivity|].
  destruct (key_compare k k0); try discriminate; intros H; now rewrite IH.
Qed.

(** ** The handle across an operation *)

Lemma objectStore_set (loc : string) (t t' : table) (d : database) :
  objectStore loc d = Some t -> objectStore loc (set_objectStore loc t' d) = Some t'.
Proof.
  induction d as [|[name t0] rest IH]; simpl; [discriminate|].
  destruct (name =? loc)%string eqn:E; simpl; rewrite E; auto.
Qed.

Lemma set_objectStore_twice (loc : string) (t t' : table) (d : database) :
  set_objectStore loc t' (set_objectStore loc t d) = set_objectStore loc t' d.
Proof.
  induction d as [|[name t0] rest IH]; simpl; [reflexivity|].
  destruct (name =? loc)%string eqn:E; simpl; rewrite E; [reflexivity|now rewrite IH].
Qed.

Lemma set_objectStore_same (loc : string) (t : table) (d : database) :
  objectStore loc d = Some t -> set_objectStore loc t d = d.
Proof.
  induction d as [|[name t0] rest IH]; simpl; [reflexivity|].
  destruct (name =? loc)%string eqn:E.
  - intros H. now injection H as ->.
  - intros H. now rewrite IH.
Qed.

Lemma db_transaction_inv (self : Indexed) (t : table) :
  db_transaction (_db self) (_loc self) = inr t ->
  exists d, _db self = Some d /\ objectStore (_loc self) d = Some t.
Proof.
  unfold db_transaction. destruct (_db self) as [d|]; [|discriminate].
  destruct (objectStore (_loc self) d) as [t0|] eqn:E; [|discriminate].
  intros H. injection H as ->. now exists d.
Qed.

(** After [with_store] the transactions of the handle see the new store. *)
Lemma db_transaction_with_store (self : Indexed) (t t' : table) :
  db_transaction (_db self) (_loc self) = inr t ->
  db_transaction (_db (with_store self t')) (_loc (with_store self t')) = inr t'.
Proof.
  intros H. apply db_transaction_inv in H as (d & Hd & Ho).
  unfold with_store, db_transaction. simpl. rewrite Hd.
  now rewrite (objectStore_set _ t t' d Ho).
Qed.

Lemma with_store_twice (self : Indexed) (t t' : table) :
  with_store (with_store self t) t' = with_store self t'.
Proof.
  unfold with_store. simpl. destruct (_db self); [|reflexivity].
  now rewrite set_objectStore_twice.
Qed.

Lemma with_store_same (self : Indexed) (t : table) :
  db_transaction (_db self) (_loc self) = inr t -> with_store self t = self.
Proof.
  intros H. apply db_transaction_inv in H as (d & Hd & Ho).
  destruct self as [loc db]. simpl in *. subst db. unfold with_store. simpl.
  now rewrite (set_objectStore_same loc t d Ho).
Qed.

Lemma store_of_getStore (self : Indexed) (t : table) (type : tx_mode) :
  db_transaction (_db self) (_loc self) = inr t ->
  store_of (getStore (_db self) (_loc self) type) = Some t.
Proof.
  intros H. unfold getStore. now rewrite H.
Qed.

(** ** Point operations on a store that is there *)

Lemma put_success (self : Indexed) (t : table) (key value : jsval) (hook_set : bool) :
  db_transaction (_db self) (_loc self) = inr t -> valid_key key = true ->
  put self key value hook_set Success
  = {| hook_calls := []; settled := Resolved Empty;
       after := with_store self (store_put key value t) |}.
Proof.
  intros Htx Hk. unfold put. now rewrite (store_of_getStore self t _ Htx), Hk.
Qed.

Lemma del_success (self : Indexed) (t : table) (key : jsval) (hook_set : bool) :
  db_transaction (_db self) (_loc self) = inr t -> valid_key key = true ->
  del self key hook_set Success
  = {| hook_calls := []; settled := Resolved Empty;
       after := with_store self (store_delete key t) |}.
Proof.
  intros Htx Hk. unfold del. now rewrite (store_of_getStore self t _ Htx), Hk.
Qed.

Lemma get_settled (self : Indexed) (t : table) (key : jsval) (hook_set : bool)
      (ev : outcome) :
  db_transaction (_db self) (_loc self) = inr t -> valid_key key = true ->
  settled (get self key hook_set ev)
  = match ev with
    | Failure e => Resolved (Err e)
    | Success => match store_get key t with
                 | Some rc => Resolved (Data (snd rc))
                 | None => Resolved (Err NotFound)
                 end
    end.
Proof.
  intros Htx Hk. unfold get. rewrite (store_of_getStore self t _ Htx), Hk.
  destruct ev; [|reflexivity]. now destruct (store_get key t) as [[k v]|].
Qed.

Lemma has_settled (self : Indexed) (t : table) (key : jsval) (hook_set : bool)
      (ev : outcome) :
  db_transaction (_db self) (_loc self) = inr t -> valid_key key = true ->
  settled (has self key hook_set ev)
  = match ev with
    | Failure e => Resolved (Err e)
    | Success => Resolved (Data (JBool (match store_get key t with
                                        | Some _ => true
                                        | None => false
                                        end)))
    end.
Proof.
  intros Htx Hk. unfold has. rewrite (store_of_getStore self t _ Htx), Hk.
  now destruct ev.
Qed.

Lemma count_settled (self : Indexed) (t : table) (hook_set : bool) :
  db_transaction (_db self) (_loc self) = inr t ->
  settled (count self hook_set Success) = Resolved (Data (JNum (Z.of_nat (List.length t)))).
Proof.
  intros Htx. unfold count. rewrite (store_of_getStore self t _ Htx). simpl.
  unfold js_or. simpl. destruct (Z.of_nat (List.length t) =? 0)%Z eqn:E; [|reflexivity].
  apply Z.eqb_eq in E. now rewrite E.
Qed.

(** X1.  What [put] stores, [get] returns: after a successful
    [put(key, value)] under a valid key, [get(key)] resolves
    [{data: value}] and [has(key)] resolves [{data: true}], whatever the
    value, [undefined] included, and whatever was stored under the key
    before. *)
Theorem put_then_get (self : Indexed) (t : table) (key value : jsval) (hook_set : bool) :
  db_transaction (_db self) (_loc self) = inr t ->
  ordered t = true ->
  valid_key key = true ->
  let self' := after (put self key value hook_set Success) in
  settled (put self key value hook_set Success) = Resolved Empty
  /\ settled (get self' key hook_set Success) = Resolved (Data value)
  /\ settled (has self' key hook_set Success) = Resolved (Data (JBool true)).
Proof.
  intros Htx Ho Hk. cbv zeta. rewrite (put_success self t key value hook_set Htx Hk).
  cbn [settled after].
  pose proof (db_transaction_with_store self t (store_put key value t) Htx) as Htx'.
  rewrite (get_settled _ _ key hook_set Success Htx' Hk).
  rewrite (has_settled _ _ key hook_set Success Htx' Hk).
  now rewrite (store_get_put_same key value t Hk Ho).
Qed.

Lemma put_then_get_witness :
  let self' := after (put (handle "test" four_rows) (JStr "b") JUndefined false Success) in
  settled (put (handle "test" four_rows) (JStr "b") JUndefined false Success) = Resolved Empty
  /\ settled (get self' (JStr "b") false Success) = Resolved (Data JUndefined)
  /\ settled (has self' (JStr "b") false Success) = Resolved (Data (JBool true)).
Proof.
  apply (put_then_get (handle "test" four_rows) four_rows (JStr "b") JUndefined false);
    reflexivity.
Defined.

(** X2.  After a successful [del(key)] under a valid key, [get(key)]
    resolves [{err: NotFound}] and [has(key)] resolves [{data: false}];
    [del] resolves [{}] whether or not the key was there, and leaves the
    handle as it was when it was not. *)
Theorem del_then_get (self : Indexed) (t : table) (key : jsval) (hook_set : bool) :
  db_transaction (_db self) (_loc self) = inr t ->
  ordered t = true ->
  valid_key key = true ->
  let self' := after (del self key hook_set Success) in
  settled (del self key hook_set Success) = Resolved Empty
  /\ settled (get self' key hook_set Success) = Resolved (Err NotFound)
  /\ settled (has self' key hook_set Success) = Resolved (Data (JBool false))
  /\ (store_get key t = None -> self' = self).
Proof.
  intros Htx Ho Hk. cbv zeta. rewrite (del_success self t key hook_set Htx Hk).
  cbn [settled after].
  pose proof (db_transaction_with_store self t (store_delete key t) Htx) as Htx'.
  rewrite (get_settled _ _ key hook_set Success Htx' Hk).
  rewrite (has_settled _ _ key hook_set Success Htx' Hk).
  rewrite (store_get_delete_same key t Hk Ho). repeat split.
  intros Habs. rewrite (store_delete_absent key t Habs). now apply with_store_same.
Qed.

Lemma del_then_get_witness :
  let self := handle "test" four_rows in
  let self' := after (del self (JStr "c") false Success) in
  settled (del self (JStr "c") false Success) = Resolved Empty
  /\ settled (get self' (JStr "c") false Success) = Resolved (Err NotFound)
  /\ settled (has self' (JStr "c") false Success) = Resolved (Data (JBool false))
  /\ (store_get (JStr "c") four_rows = None -> self' = self).
Proof.
  apply (del_then_get (handle "test" four_rows) four_rows (JStr "c") false); reflexivity.
Defined.

(** X3.  [put] and [del] touch one key: for a valid key other than the one
    written or deleted, [get] and [has] resolve after the operation with
    what they resolved with before, under every answer of the engine. *)
Theorem put_del_leave_other_keys (self : Indexed) (t : table) (key other value : jsval)
        (hook_set : bool) (ev : outcome) :
  db_transaction (_db self) (_loc self) = inr t ->
  ordered t = true ->
  valid_key key = true ->
  valid_key other = true ->
  other <> key ->
  settled (get (after (put self key value hook_set Success)) other hook_set ev)
  = settled (get self other hook_set ev)
  /\ settled (has (after (put self key value hook_set Success)) other hook_set ev)
     = settled (has self other hook_set ev)
  /\ settled (get (after (del self key hook_set Success)) other hook_set ev)
     = settled (get self other hook_set ev)
  /\ settled (has (after (del self key hook_set Success)) other hook_set ev)
     = settled (has self other hook_set ev).
Proof.
  intros Htx Ho Hk Hk' Hn.
  rewrite (put_success self t key value hook_set Htx Hk).
  rewrite (del_success self t key hook_set Htx Hk). cbn [after].
  pose proof (db_transaction_with_store self t (store_put key value t) Htx) as Hp.
  pose proof (db_transaction_with_store self t (store_delete key t) Htx) as Hd.
  rewrite (get_settled _ _ other hook_set ev Hp Hk'), (has_settled _ _ other hook_set ev Hp Hk').
  rewrite (get_settled _ _ other hook_set ev Hd Hk'), (has_settled _ _ other hook_set ev Hd Hk').
  rewrite (get_settled _ _ other hook_set ev Htx Hk'), (has_settled _ _ other hook_set ev Htx Hk').
  rewrite (store_get_put_other key other value t Hk Hk' Hn Ho).
  rewrite (store_get_delete_other key other t Hk Hk' Hn Ho).
  repeat split.
Qed.

Lemma put_del_leave_other_keys_witness :
  let self := handle "test" four_rows in
  settled (get (after (put self (JStr "b") (JNum 9) false Success)) (JStr "c") false Success)
  = settled (get self (JStr "c") false Success)
  /\ settled (has (after (put self (JStr "b") (JNum 9) false Success)) (JStr "c") false Success)
     = settled (has self (JStr "c") false Success)
  /\ settled (get (after (del self (JStr "b") false Success)) (JStr "c") false Success)
     = settled (get self (JStr "c") false Success)
  /\ settled (has (after (del self (JStr "b") false Success)) (JStr "c") false Success)
     = settled (has self (JStr "c") false Success).
Proof.
  apply (put_del_leave_other_keys (handle "test" four_rows) four_rows
           (JStr "b") (JStr "c") (JNum 9) false Success);
    try reflexivity; discriminate.
Defined.

(** X4.  [count] resolves with the number of records, [0] for an empty
    store.  A successful [put] raises it by one when the key is new and
    leaves it when the key is replaced; a successful [del] lowers it by one
    when the key was there and leaves it otherwise. *)
Theorem count_follows_put_and_del (self : Indexed) (t : table) (key value : jsval)
        (hook_set : bool) :
  db_transaction (_db self) (_loc self) = inr t ->
  ordered t = true ->
  valid_key key = true ->
  let n := Z.of_nat (List.length t) in
  let present := match store_get key t with Some _ => true | None => false end in
  settled (count self hook_set Success) = Resolved (Data (JNum n))
  /\ settled (count (after (put self key value hook_set Success)) hook_set Success)
     = Resolved (Data (JNum (if present then n else n + 1)))
  /\ settled (count (after (del self key hook_set Success)) hook_set Success)
     = Resolved (Data (JNum (if present then n - 1 else n))).
Proof.
  intros Htx Ho Hk. cbv zeta.
  rewrite (put_success self t key value hook_set Htx Hk).
  rewrite (del_success self t key hook_set Htx Hk). cbn [after].
  rewrite (count_settled self t hook_set Htx).
  rewrite (count_settled _ _ hook_set (db_transaction_with_store self t _ Htx)).
  rewrite (count_settled _ _ hook_set (db_transaction_with_store self t _ Htx)).
  rewrite (store_put_length key value t Hk Ho), (store_delete_length key t Hk Ho).
  destruct (store_get key t) as [rc|] eqn:Hg; repeat split.
  - assert (Hpos : 0 < List.length t) by (destruct t; [discriminate|simpl; lia]).
    replace (Z.of_nat (Nat.pred (List.length t))) with (Z.of_nat (List.length t) - 1)%Z
      by lia.
    reflexivity.
  - replace (Z.of_nat (S (List.length t))) with (Z.of_nat (List.length t) + 1)%Z by lia.
    reflexivity.
Qed.

Lemma count_follows_put_and_del_witness :
  let self := handle "test" four_rows in
  settled (count self false Success) = Resolved (Data (JNum 4))
  /\ settled (count (after (put self (JStr "e") JNull false Success)) false Success)
     = Resolved (Data (JNum 5))
  /\ settled (count (after (del self (JStr "e") false Success)) false Success)
     = Resolved (Data (JNum 4)).
Proof.
  apply (count_follows_put_and_del (handle "test" four_rows) four_rows
           (JStr "e") JNull false); reflexivity.
Defined.

(** ** batch as a sequence of operations *)

Lemma queue_of_app (a b : list op) :
  forall q : list request,
    forallb (fun o => valid_key (op_key o)) a = true ->
    queue_of q (a ++ b) = queue_of (q ++ map request_of a) b.
Proof.
  induction a as [|o a IH]; intros q Hv; simpl.
  - now rewrite app_nil_r.
  - simpl in Hv. apply andb_true_iff in Hv as [Ho Ha]. rewrite Ho.
    rewrite (IH _ Ha). now rewrite <- app_assoc.
Qed.

Lemma filter_runs_clean (ops : list op) :
  forallb runs_clean ops = true ->
  forallb (fun o => valid_key (op_key o)) (filter recognized ops) = true.
Proof.
  induction ops as [|o ops IH]; simpl; [reflexivity|].
  intros H. apply andb_true_iff in H as [Ho Hrest]. unfold runs_clean in Ho.
  destruct (recognized o); simpl in *; [rewrite Ho|]; auto.
Qed.

Lemma queue_of_clean (a : list op) (q : list request) :
  forallb (fun o => valid_key (op_key o)) a = true ->
  queue_of q a = (q ++ map request_of a, inr tt).
Proof.
  intros H. pose proof (queue_of_app a [] q H) as E.
  rewrite app_nil_r in E. exact E.
Qed.

(** The queue of a batch in which no key is refused. *)
Lemma forEach_clean (ops : list op) :
  forallb runs_clean ops = true ->
  forEach eachOp ops [] = (map request_of (filter recognized ops), inr tt).
Proof.
  intros H. rewrite forEach_skips, (forEach_queue _ _ (filter_recognized ops)).
  exact (queue_of_clean _ [] (filter_runs_clean ops H)).
Qed.

Lemma queue_of_well_keyed (ops : list op) :
  forall q : list request,
    Forall well_keyed q -> Forall well_keyed (fst (queue_of q ops)).
Proof.
  induction ops as [|o ops IH]; intros q Hq; simpl; [exact Hq|].
  destruct (valid_key (op_key o)) eqn:Hv; [|exact Hq].
  apply IH. apply Forall_app. split; [exact Hq|].
  constructor; [|constructor]. unfold request_of.
  now destruct (strict_eq (op_type o) (JStr "put")).
Qed.

Lemma apply_op_with_store (self : Indexed) (t0 t1 : table) (o : op) :
  db_transaction (_db self) (_loc self) = inr t0 ->
  runs_clean o = true ->
  apply_op (with_store self t1) o
  = with_store self (if recognized o then apply_request t1 (request_of o) else t1).
Proof.
  intros Htx Hc.
  pose proof (db_transaction_with_store self t0 t1 Htx) as Htx1.
  unfold apply_op, runs_clean, recognized, request_of in *.
  destruct (strict_eq (op_type o) (JStr "put")) eqn:Hput; simpl in Hc.
  - rewrite (put_success _ t1 _ _ false Htx1 Hc). cbn [after orb apply_request].
    apply with_store_twice.
  - destruct (strict_eq (op_type o) (JStr "del")) eqn:Hdel; simpl in Hc; [|reflexivity].
    rewrite (del_success _ t1 _ false Htx1 Hc). cbn [after orb apply_request].
    apply with_store_twice.
Qed.

Lemma fold_apply_op (self : Indexed) (t0 : table) (ops : list op) :
  db_transaction (_db self) (_loc self) = inr t0 ->
  forallb runs_clean ops = true ->
  forall t1 : table,
    fold_left apply_op ops (with_store self t1)
    = with_store self (commit (map request_of (filter recognized ops)) t1).
Proof.
  intros Htx. induction ops as [|o ops IH]; intros Hc t1; [reflexivity|].
  simpl in Hc. apply andb_true_iff in Hc as [Ho Hrest].
  cbn [fold_left]. rewrite (apply_op_with_store self t0 t1 o Htx Ho).
  rewrite (IH Hrest). simpl. now destruct (recognized o).
Qed.

(** X5.  A batch in which no recognized operation has a refused key, once
    committed, leaves the handle as running its elements one after the
    other as [put] and [del] would, elements of another [type] doing
    nothing; it resolves [{}]. *)
Theorem batch_is_the_sequence_of_its_operations
        (self : Indexed) (t : table) (ops : list op) (hook_set : bool) :
  db_transaction (_db self) (_loc self) = inr t ->
  forallb runs_clean ops = true ->
  settled (batch self ops hook_set Complete) = Resolved Empty
  /\ hook_calls (batch self ops hook_set Complete) = []
  /\ after (batch self ops hook_set Complete) = fold_left apply_op ops self.
Proof.
  intros Htx Hc. unfold batch.
  rewrite (store_of_getStore self t _ Htx), (forEach_clean ops Hc). cbn [settled hook_calls after].
  repeat split.
  rewrite <- (with_store_same self t Htx) at 2.
  now rewrite (fold_apply_op self t ops Htx Hc).
Qed.

Lemma batch_is_the_sequence_of_its_operations_witness :
  let self := handle "test" four_rows in
  let ops := [ {| op_type := JStr "put"; op_key := JStr "e"; op_value := JNum 5 |};
               {| op_type := JStr "nop"; op_key := JNull; op_value := JNull |};
               {| op_type := JStr "del"; op_key := JStr "a"; op_value := JUndefined |} ] in
  settled (batch self ops false Complete) = Resolved Empty
  /\ hook_calls (batch self ops false Complete) = []
  /\ after (batch self ops false Complete)
     = after (del (after (put self (JStr "e") (JNum 5) false Success))
                  (JStr "a") false Success).
Proof.
  apply (batch_is_the_sequence_of_its_operations (handle "test" four_rows) four_rows
           [ {| op_type := JStr "put"; op_key := JStr "e"; op_value := JNum 5 |};
             {| op_type := JStr "nop"; op_key := JNull; op_value := JNull |};
             {| op_type := JStr "del"; op_key := JStr "a"; op_value := JUndefined |} ]
           false); reflexivity.
Defined.

(** X6.  When the key of a recognized operation is refused, [batch] rejects
    with [DataError] whatever becomes of the transaction; the operations
    before it are queued all the same and, if the transaction commits, are
    applied, and the operations after it are not. *)
Theorem batch_refused_key_keeps_the_earlier_operations
        (self : Indexed) (t : table) (before after_it : list op) (bad : op)
        (hook_set : bool) (ev : tx_outcome) :
  db_transaction (_db self) (_loc self) = inr t ->
  forallb runs_clean before = true ->
  recognized bad = true ->
  valid_key (op_key bad) = false ->
  settled (batch self (before ++ bad :: after_it) hook_set ev) = Rejected DataError
  /\ after (batch self (before ++ bad :: after_it) hook_set Complete)
     = fold_left apply_op before self
  /\ after (batch self (before ++ bad :: after_it) hook_set Complete)
     = after (batch self before hook_set Complete).
Proof.
  intros Htx Hc Hr Hv.
  assert (Hq : forEach eachOp (before ++ bad :: after_it) []
               = (map request_of (filter recognized before), inl DataError)).
  { rewrite forEach_skips, (forEach_queue _ _ (filter_recognized _)).
    rewrite filter_app. simpl. rewrite Hr.
    rewrite (queue_of_app _ _ [] (filter_runs_clean before Hc)). simpl.
    now rewrite Hv. }
  unfold batch. rewrite (store_of_getStore self t _ Htx), Hq, (forEach_clean before Hc).
  cbn [settled after]. repeat split.
  rewrite <- (with_store_same self t Htx) at 2.
  now rewrite (fold_apply_op self t before Htx Hc).
Qed.

Lemma batch_refused_key_keeps_the_earlier_operations_witness :
  let self := handle "test" four_rows in
  let first := {| op_type := JStr "put"; op_key := JStr "e"; op_value := JNum 5 |} in
  let bad := {| op_type := JStr "put"; op_key := JUndefined; op_value := JNum 6 |} in
  let last := {| op_type := JStr "del"; op_key := JStr "a"; op_value := JUndefined |} in
  settled (batch self ([first] ++ bad :: [last]) false Complete) = Rejected DataError
  /\ after (batch self ([first] ++ bad :: [last]) false Complete)
     = after (put self (JStr "e") (JNum 5) false Success)
  /\ after (batch self ([first] ++ bad :: [last]) false Complete)
     = after (batch self [first] false Complete).
Proof.
  apply (batch_refused_key_keeps_the_earlier_operations (handle "test" four_rows) four_rows
           [ {| op_type := JStr "put"; op_key := JStr "e"; op_value := JNum 5 |} ]
           [ {| op_type := JStr "del"; op_key := JStr "a"; op_value := JUndefined |} ]
           {| op_type := JStr "put"; op_key := JUndefined; op_value := JNum 6 |}
           false Complete); reflexivity.
Defined.

(** X7.  The operations keep the object store in order: when the store of
    the handle has valid, strictly ascending keys, so has the store of the
    handle after [put], [del] and [batch], under any key, any list of
    operations and any answer of the engine. *)
Theorem operations_keep_the_store_ordered (self : Indexed) (t : table) :
  db_transaction (_db self) (_loc self) = inr t ->
  ordered t = true ->
  forall (key value : jsval) (ops : list op) (hook_set : bool)
         (ev : outcome) (txev : tx_outcome),
    (exists t', store_at (after (put self key value hook_set ev)) = Some t'
                /\ ordered t' = true)
    /\ (exists t', store_at (after (del self key hook_set ev)) = Some t'
                   /\ ordered t' = true)
    /\ (exists t', store_at (after (batch self ops hook_set txev)) = Some t'
                   /\ ordered t' = true).
Proof.
  intros Htx Ho key value ops hook_set ev txev.
  assert (Hself : exists t', store_at self = Some t' /\ ordered t' = true).
  { exists t. unfold store_at. now rewrite Htx. }
  assert (Hnew : forall t', ordered t' = true ->
                   exists t'', store_at (with_store self t') = Some t''
                               /\ ordered t'' = true).
  { intros t' Ho'. exists t'. unfold store_at.
    now rewrite (db_transaction_with_store self t t' Htx). }
  repeat split.
  - unfold put. rewrite (store_of_getStore self t _ Htx).
    destruct (valid_key key) eqn:Hk; [|exact Hself].
    destruct ev; [|exact Hself]. apply Hnew. now apply store_put_ordered.
  - unfold del. rewrite (store_of_getStore self t _ Htx).
    destruct (valid_key key) eqn:Hk; [|exact Hself].
    destruct ev; [|exact Hself]. apply Hnew. now apply store_delete_ordered.
  - unfold batch. rewrite (store_of_getStore self t _ Htx).
    pose proof (queue_of_well_keyed (filter recognized ops) [] (Forall_nil _)) as Hq.
    rewrite <- (forEach_queue _ _ (filter_recognized ops)), <- forEach_skips in Hq.
    destruct (forEach eachOp ops []) as [q thrown]. cbn [after fst] in *.
    destruct txev; [|exact Hself]. apply Hnew. now apply commit_ordered.
Qed.

Lemma operations_keep_the_store_ordered_witness :
  let self := handle "test" four_rows in
  let ops := [ {| op_type := JStr "put"; op_key := JStr "0"; op_value := JNum 0 |};
               {| op_type := JStr "del"; op_key := JStr "d"; op_value := JNull |} ] in
  (exists t', store_at (after (put self (JStr "bb") (JNum 5) false Success)) = Some t'
              /\ ordered t' = true)
  /\ (exists t', store_at (after (del self (JStr "bb") false Success)) = Some t'
                 /\ ordered t' = true)
  /\ (exists t', store_at (after (batch self ops false Complete)) = Some t'
                 /\ ordered t' = true).
Proof.
  apply (operations_keep_the_store_ordered (handle "test" four_rows) four_rows);
    reflexivity.
Defined.

(** ** Ranges that say what they mean *)

Lemma valid_key_defined (v : jsval) : valid_key v = true -> is_defined v = true.
Proof. now destruct v. Qed.

Lemma read_cursor (self : Indexed) (opts : options) (t : table) (r : option key_range)
      (inside : jsval -> bool) :
  db_transaction (_db self) (_loc self) = inr t ->
  eval_range (getRange opts) = inr r ->
  (forall k, includes r k = inside k) ->
  read self opts
  = Resolved {| s_store := t; s_limit := o_limit opts; s_count := 0;
                s_phase := CursorPending
                             (let ks := filter inside (map fst t) in
                              if truthy (o_reverse opts) then rev ks else ks) |}.
Proof.
  intros Htx Hr Hin. unfold read. rewrite (store_of_getStore self t _ Htx), Hr.
  unfold cursor_keys. now rewrite (filter_ext _ _ Hin).
Qed.

(** X8.  A pair of bounds of one kind means what it says.  With [gt] and
    [lt] alone, a lower bound below the upper one, the cursor of [read]
    visits the keys strictly between the two; with [gte] and [lte] alone,
    the keys between them, the bounds included. *)
Theorem read_between_a_pair_of_bounds
        (self : Indexed) (t : table) (o : options) (l u : jsval) (strict : bool) :
  db_transaction (_db self) (_loc self) = inr t ->
  o_gt o = (if strict then l else JUndefined) ->
  o_gte o = (if strict then JUndefined else l) ->
  o_lt o = (if strict then u else JUndefined) ->
  o_lte o = (if strict then JUndefined else u) ->
  valid_key l = true -> truthy l = true ->
  valid_key u = true -> truthy u = true ->
  key_compare l u = Lt ->
  let inside k := if strict then key_lt l k && key_lt k u else key_le l k && key_le k u in
  read self o
  = Resolved {| s_store := t; s_limit := o_limit o; s_count := 0;
                s_phase := CursorPending
                             (let ks := filter inside (map fst t) in
                              if truthy (o_reverse o) then rev ks else ks) |}.
Proof.
  intros Htx Hgt Hgte Hlt Hlte Hvl Htl Hvu Htu Hc inside.
  apply (read_cursor self o t
           (Some {| kr_lower := Some l; kr_upper := Some u;
                    kr_lowerOpen := strict; kr_upperOpen := strict |}) inside Htx).
  - unfold getRange, js_or. rewrite Hgt, Hgte, Hlt, Hlte.
    destruct strict; simpl; rewrite ?Htl, ?Htu; simpl;
      rewrite ?(valid_key_defined l Hvl), ?(valid_key_defined u Hvu);
      unfold IDBKeyRange_bound; now rewrite Hvl, Hvu, Hc.
  - intros k. unfold inside, includes, above_lower, below_upper, key_lt, key_le. simpl.
    destruct strict, (key_compare l k), (key_compare k u); reflexivity.
Qed.

Lemma read_between_a_pair_of_bounds_witness :
  let o := {| o_lt := JStr "d"; o_lte := JUndefined; o_gt := JStr "a";
              o_gte := JUndefined; o_limit := JUndefined; o_reverse := JUndefined |} in
  read (handle "test" four_rows) o
  = Resolved {| s_store := four_rows; s_limit := JUndefined; s_count := 0;
                s_phase := CursorPending [JStr "b"; JStr "c"] |}.
Proof.
  apply (read_between_a_pair_of_bounds (handle "test" four_rows) four_rows
           {| o_lt := JStr "d"; o_lte := JUndefined; o_gt := JStr "a";
              o_gte := JUndefined; o_limit := JUndefined; o_reverse := JUndefined |}
           (JStr "a") (JStr "d") true); reflexivity.
Defined.

(** X9.  A single bound means what it says: with [lt] alone the cursor
    visits the keys strictly below it, with [lte] alone the keys up to it,
    with [gt] alone the keys strictly above it, with [gte] alone the keys
    from it on. *)
Theorem read_on_one_side_of_a_bound
        (self : Indexed) (t : table) (o : options) (b : jsval) (upper strict : bool) :
  db_transaction (_db self) (_loc self) = inr t ->
  o_lt o = (if upper && strict then b else JUndefined) ->
  o_lte o = (if upper && negb strict then b else JUndefined) ->
  o_gt o = (if negb upper && strict then b else JUndefined) ->
  o_gte o = (if negb upper && negb strict then b else JUndefined) ->
  valid_key b = true -> truthy b = true ->
  let inside k :=
    match upper, strict with
    | true, true => key_lt k b
    | true, false => key_le k b
    | false, true => key_lt b k
    | false, false => key_le b k
    end in
  read self o
  = Resolved {| s_store := t; s_limit := o_limit o; s_count := 0;
                s_phase := CursorPending
                             (let ks := filter inside (map fst t) in
                              if truthy (o_reverse o) then rev ks else ks) |}.
Proof.
  intros Htx Hlt Hlte Hgt Hgte Hv Ht inside.
  apply (read_cursor self o t
           (Some {| kr_lower := if upper then None else Some b;
                    kr_upper := if upper then Some b else None;
                    kr_lowerOpen := if upper then true else strict;
                    kr_upperOpen := if upper then strict else true |}) inside Htx).
  - unfold getRange, js_or. rewrite Hgt, Hgte, Hlt, Hlte.
    destruct upper, strict; simpl; rewrite ?Ht; simpl;
      rewrite ?(valid_key_defined b Hv);
      unfold IDBKeyRange_upperBound, IDBKeyRange_lowerBound; now rewrite Hv.
  - intros k. unfold inside, includes, above_lower, below_upper, key_lt, key_le.
    destruct upper, strict; simpl;
      try (destruct (key_compare k b); reflexivity);
      destruct (key_compare b k); reflexivity.
Qed.

Lemma read_on_one_side_of_a_bound_witness :
  let o := {| o_lt := JUndefined; o_lte := JUndefined; o_gt := JUndefined;
              o_gte := JStr "c"; o_limit := JUndefined; o_reverse := JBool true |} in
  read (handle "test" four_rows) o
  = Resolved {| s_store := four_rows; s_limit := JUndefined; s_count := 0;
                s_phase := CursorPending [JStr "d"; JStr "c"] |}.
Proof.
  apply (read_on_one_side_of_a_bound (handle "test" four_rows) four_rows
           {| o_lt := JUndefined; o_lte := JUndefined; o_gt := JUndefined;
              o_gte := JStr "c"; o_limit := JUndefined; o_reverse := JBool true |}
           (JStr "c") false false); reflexivity.
Defined.

(** X10.  A range the engine refuses makes [read] reject and [readAll]
    hang.  With both sides given and truthy, when a bound is not a valid
    key, or the lower bound is above the upper one, or the two are equal
    and [lt] or [gt] is defined, [IDBKeyRange.bound] throws: the promise of
    [read] is rejected with [DataError], and the promise of [readAll],
    whose callback is never run, stays pending under any answers, with no
    call to the hook. *)
Theorem read_rejects_a_refused_range
        (StringToNumber : string -> option Z) (self : Indexed) (t : table) (o : options)
        (hook_set : bool) (os : list outcome) :
  db_transaction (_db self) (_loc self) = inr t ->
  let lower := js_or (o_gte o) (o_gt o) in
  let upper := js_or (o_lte o) (o_lt o) in
  truthy lower = true ->
  truthy upper = true ->
  valid_key lower = false
  \/ valid_key upper = false
  \/ key_compare lower upper = Gt
  \/ (key_compare lower upper = Eq /\ is_defined (o_lt o) || is_defined (o_gt o) = true) ->
  read self o = Rejected DataError
  /\ settled (readAll StringToNumber self o hook_set os) = Pending
  /\ hook_calls (readAll StringToNumber self o hook_set os) = [].
Proof.
  intros Htx lower upper Hl Hu Hbad.
  assert (Hr : eval_range (getRange o) = inl DataError).
  { rewrite (getRange_both o Hu Hl). fold lower upper. simpl.
    unfold IDBKeyRange_bound.
    destruct (valid_key lower) eqn:Hvl, (valid_key upper) eqn:Hvu; simpl; auto.
    destruct Hbad as [H|[H|[H|[H1 H2]]]]; try discriminate.
    - now rewrite H.
    - now rewrite H1, H2. }
  assert (Hread : read self o = Rejected DataError).
  { unfold read. now rewrite (store_of_getStore self t _ Htx), Hr. }
  unfold readAll. rewrite Hread. repeat split.
Qed.

Lemma read_rejects_a_refused_range_witness :
  let o := {| o_lt := JNum 5; o_lte := JUndefined; o_gt := JNum 5;
              o_gte := JUndefined; o_limit := JUndefined; o_reverse := JUndefined |} in
  read (handle "test" four_rows) o = Rejected DataError
  /\ settled (readAll (decimal 0) (handle "test" four_rows) o true [Success; Success])
     = Pending
  /\ hook_calls (readAll (decimal 0) (handle "test" four_rows) o true [Success; Success])
     = [].
Proof.
  apply (read_rejects_a_refused_range (decimal 0) (handle "test" four_rows) four_rows
           {| o_lt := JNum 5; o_lte := JUndefined; o_gt := JNum 5;
              o_gte := JUndefined; o_limit := JUndefined; o_reverse := JUndefined |}
           true [Success; Success]); try reflexivity.
  right; right; right. split; reflexivity.
Defined.

(** ** Streams, whatever the engine answers *)

Lemma records_at_found (t : table) (recs : list record) :
  Forall (fun rc => store_get (fst rc) t = Some rc) recs ->
  records_at t (map fst recs) = recs.
Proof.
  induction 1 as [|rc recs Hrc _ IH]; [reflexivity|].
  unfold records_at in *. simpl. now rewrite Hrc, IH.
Qed.

Section Delivered.

Variable StringToNumber : string -> option Z.
Variable h : handlers.
Variable hook_set : bool.

Local Abbreviation answer := (deliver StringToNumber h hook_set).
Local Abbreviation exec := (run StringToNumber h hook_set).

(** With [ondata] attached, an answer delivers nothing and leaves the
    positions as they are, or ends the stream having delivered at most the
    record of the next position, or delivers that record and moves on. *)
Lemma deliver_records (o : outcome) (s : stream) :
  ondata h = true ->
  lookups_hit s ->
  s_store (fst (answer o s)) = s_store s
  /\ ((datas (events_of (snd (answer o s))) = []
       /\ pending_keys (s_phase (fst (answer o s))) = pending_keys (s_phase s))
      \/ (s_phase (fst (answer o s)) = Quiet
          /\ exists n, datas (events_of (snd (answer o s)))
                       = firstn n (records_at (s_store s) (pending_keys (s_phase s))))
      \/ (exists k v rest,
            pending_keys (s_phase s) = k :: rest
            /\ store_get k (s_store s) = Some (k, v)
            /\ datas (events_of (snd (answer o s))) = [(k, v)]
            /\ pending_keys (s_phase (fst (answer o s))) = rest)).
Proof.
  unfold lookups_hit, deliver. intros ondata_set Hhit.
  destruct (s_phase s) as [[|k rest]|k rest|] eqn:Hph; destruct o as [|e];
    cbn [pending_keys] in *.
  - split; [reflexivity|]. right; left. split; [reflexivity|].
    exists 0. now destruct (onend h).
  - split; [reflexivity|]. right; left. split; [reflexivity|].
    exists 0. now destruct hook_set, (onerror h).
  - split; [reflexivity|]. left. split; reflexivity.
  - split; [reflexivity|]. right; left. split; [reflexivity|].
    exists 0. now destruct hook_set, (onerror h).
  - inversion Hhit as [|k0 l [v Hk] Hrest]; subst. rewrite Hk, ondata_set.
    destruct (truthy (s_limit s)); [destruct (at_limit StringToNumber (s_limit s) (s_count s))|];
      (split; [reflexivity|]).
    + right; left. split; [reflexivity|]. exists 1.
      unfold records_at. cbn [flat_map fst snd move s_store]. rewrite Hk.
      now destruct (onend h).
    + right; right. exists k, v, rest. repeat split. exact Hk.
    + right; right. exists k, v, rest. repeat split. exact Hk.
  - split; [reflexivity|]. right; left. split; [reflexivity|].
    exists 0. now destruct hook_set, (onerror h).
  - split; [reflexivity|]. left. cbn [fst snd]. rewrite Hph. split; reflexivity.
  - split; [reflexivity|]. left. cbn [fst snd]. rewrite Hph. split; reflexivity.
Qed.

(** What a stream has delivered is an initial segment of the records at
    its pending positions. *)
Lemma run_records (os : list outcome) :
  ondata h = true ->
  forall s : stream,
    lookups_hit s ->
    exists n, datas (events_of (snd (exec os s)))
              = firstn n (records_at (s_store s) (pending_keys (s_phase s))).
Proof.
  intros ondata_set.
  induction os as [|o os IH]; intros s Hhit; [now exists 0|].
  cbn [run].
  destruct (deliver_records o s ondata_set Hhit)
    as [Hst [[Hd Hp]|[[Hq [n Hn]]|(k & v & rest & Hp & Hk & Hd & Hp')]]];
    destruct (answer o s) as [s1 t1] eqn:Hstep; cbn [fst snd] in *.
  - destruct (IH s1) as [n Hn].
    { unfold lookups_hit. rewrite Hst, Hp. exact Hhit. }
    exists n. destruct (exec os s1) as [s2 t2]. cbn [snd] in *.
    now rewrite events_of_app, datas_app, Hd, Hn, Hst, Hp.
  - exists n. rewrite (run_quiet StringToNumber h hook_set os s1 Hq).
    now rewrite app_nil_r.
  - destruct (IH s1) as [n Hn].
    { unfold lookups_hit in *. rewrite Hst, Hp'. rewrite Hp in Hhit.
      now inversion Hhit. }
    exists (S n). destruct (exec os s1) as [s2 t2]. cbn [snd] in *.
    rewrite events_of_app, datas_app, Hd, Hn, Hst, Hp, Hp'.
    unfold records_at. cbn [flat_map]. now rewrite Hk.
Qed.


End Delivered.

Lemma read_stream (self : Indexed) (opts : options) (t : table)
      (range : option key_range) :
  db_transaction (_db self) (_loc self) = inr t ->
  eval_range (getRange opts) = inr range ->
  ordered t = true ->
  exists s,
    read self opts = Resolved s
    /\ s_store s = t
    /\ s_limit s = o_limit opts
    /\ s_count s = 0%Z
    /\ s_phase s = CursorPending
                     (map fst (cursor_records t range (truthy (o_reverse opts))))
    /\ lookups_hit s
    /\ records_at t (map fst (cursor_records t range (truthy (o_reverse opts))))
       = cursor_records t range (truthy (o_reverse opts)).
Proof.
  intros Htx Hr Ho. eexists. split; [exact (read_resolved self opts t range Htx Hr)|].
  cbn [s_store s_limit s_count s_phase]. repeat split.
  - unfold lookups_hit. cbn [s_store s_phase pending_keys].
    apply Forall_forall. intros k Hin. apply in_map_iff in Hin as [[k' v] [<- Hin]].
    exists v. apply (store_get_in t (k', v) Ho).
    exact (cursor_records_in _ _ _ _ Hin).
  - apply records_at_found, cursor_records_found, Ho.
Qed.

(** X11.  Whatever the engine answers, and with whatever limit, what a
    stream has handed to [ondata] is an initial segment of the records of
    the range in cursor order: each pair is a record of the store, none is
    skipped, repeated or out of order. *)
Theorem read_delivers_an_initial_segment
        (StringToNumber : string -> option Z) (self : Indexed) (t : table)
        (opts : options) (range : option key_range) (h : handlers) (hook_set : bool)
        (os : list outcome) :
  db_transaction (_db self) (_loc self) = inr t ->
  eval_range (getRange opts) = inr range ->
  ordered t = true ->
  ondata h = true ->
  exists s n,
    read self opts = Resolved s
    /\ datas (events_of (snd (run StringToNumber h hook_set os s)))
       = firstn n (cursor_records t range (truthy (o_reverse opts))).
Proof.
  intros Htx Hr Ho Hd.
  destruct (read_stream self opts t range Htx Hr Ho)
    as (s & Hread & Hst & _ & _ & Hph & Hhit & Hrecs).
  destruct (run_records StringToNumber h hook_set os Hd s Hhit) as [n Hn].
  exists s, n. split; [exact Hread|].
  rewrite Hn, Hst, Hph. cbn [pending_keys]. now rewrite Hrecs.
Qed.

Lemma read_delivers_an_initial_segment_witness :
  exists s n,
    read (handle "test" four_rows) no_options = Resolved s
    /\ datas (events_of (snd (run (decimal 0) all_handlers true
                                  [Success; Success; Success; Success; Success;
                                   Failure (EngineError 3); Success] s)))
       = firstn n (cursor_records four_rows None (truthy JUndefined)).
Proof.
  apply (read_delivers_an_initial_segment (decimal 0) (handle "test" four_rows) four_rows
           no_options None all_handlers true); reflexivity.
Defined.



(** ** Streams the engine never fails, under any limit *)

Section AllSuccesses.

Variable StringToNumber : string -> option Z.
Variable h : handlers.
Variable hook_set : bool.

Local Abbreviation exec := (run StringToNumber h hook_set).

(** A numeric limit that the counter has passed, or that lies beyond the
    records left, is never met: every record is streamed and the cursor
    runs out. *)
Lemma run_limit_never_met (recs : list record) :
  forall (s : stream) (N : Z),
    s_limit s = JNum N ->
    N <> 0%Z ->
    (N <= s_count s \/ s_count s + Z.of_nat (List.length recs) < N)%Z ->
    s_phase s = CursorPending (map fst recs) ->
    Forall (fun rc => store_get (fst rc) (s_store s) = Some rc) recs ->
    exec (repeat Success (2 * List.length recs + 1)) s
    = (move s (s_count s + Z.of_nat (List.length recs)) Quiet,
       flat_map (emit h) recs ++ fire (onend h) Onend).
Proof.
  induction recs as [|[k v] recs IH]; intros s N Hlim HN Hroom Hph Hfound.
  - simpl. unfold deliver. rewrite Hph. simpl. now rewrite app_nil_r, Z.add_0_r.
  - replace (2 * List.length ((k, v) :: recs) + 1)
      with (S (S (2 * List.length recs + 1))) by (cbn [List.length]; lia).
    inversion Hfound as [|rc l Hk Hrest]; subst. simpl in Hk.
    assert (Htruthy : truthy (JNum N) = true)
      by (simpl; now apply negb_true_iff, Z.eqb_neq).
    cbn [repeat run]. unfold deliver at 1. rewrite Hph. cbn [map fst].
    unfold deliver at 1. cbn [s_phase move s_store s_limit s_count].
    rewrite Hk, Hlim, Htruthy. unfold at_limit. cbn [ToNumber].
    replace (s_count s =? N - 1)%Z with false
      by (symmetry; apply Z.eqb_neq; cbn [List.length] in Hroom; lia).
    rewrite move_move.
    rewrite (IH (move s (s_count s + 1) (CursorPending (map fst recs))) N);
      cbn [s_phase move s_store s_limit s_count]; auto;
      [|cbn [List.length] in Hroom; lia].
    rewrite move_move. cbn [flat_map app List.length].
    replace (s_count s + 1 + Z.of_nat (List.length recs))%Z
      with (s_count s + Z.of_nat (S (List.length recs)))%Z by lia.
    now rewrite <- app_assoc.
Qed.

(** What a fresh stream makes of [2 n + 1] successful answers over [n]
    positions, when its limit is falsy or a number. *)
Lemma run_capped (recs : list record) (s : stream) :
  s_count s = 0%Z ->
  truthy (s_limit s) = false \/ (exists N, s_limit s = JNum N) ->
  s_phase s = CursorPending (map fst recs) ->
  Forall (fun rc => store_get (fst rc) (s_store s) = Some rc) recs ->
  snd (exec (repeat Success (2 * List.length recs + 1)) s)
  = flat_map (emit h) (capped (s_limit s) recs) ++ fire (onend h) Onend.
Proof.
  intros Hc Hlim Hph Hfound.
  assert (Hfalsy : truthy (s_limit s) = false ->
                   snd (exec (repeat Success (2 * List.length recs + 1)) s)
                   = flat_map (emit h) recs ++ fire (onend h) Onend).
  { intros Hf. now rewrite (run_unlimited StringToNumber h hook_set recs s Hf Hph Hfound). }
  destruct Hlim as [Hf|[N HN]].
  - rewrite (Hfalsy Hf). unfold capped.
    destruct (s_limit s) as [| |b|n| |str]; try reflexivity.
    simpl in Hf. apply negb_false_iff, Z.eqb_eq in Hf. now subst n.
  - rewrite HN. unfold capped.
    destruct (1 <=? N)%Z eqn:Hpos.
    + apply Z.leb_le in Hpos.
      destruct (Nat.le_gt_cases (Z.to_nat N) (List.length recs)) as [Hle|Hgt].
      * destruct (Z.to_nat N) as [|m] eqn:Hm; [lia|].
        replace (2 * List.length recs + 1)
          with (2 * S m + (2 * List.length recs + 1 - 2 * S m)) by lia.
        rewrite repeat_app, run_app. cbn [snd].
        rewrite (run_limited StringToNumber h hook_set m recs s N);
          auto; try lia.
        cbn [fst snd]. rewrite run_quiet by reflexivity. apply app_nil_r.
      * rewrite (run_limit_never_met recs s N); auto; try lia.
        cbn [snd]. now rewrite firstn_all2 by lia.
    + apply Z.leb_gt in Hpos.
      destruct (Z.eq_dec N 0) as [->|Hnz].
      * apply Hfalsy. now rewrite HN.
      * now rewrite (run_limit_never_met recs s N); auto; try lia.
Qed.

End AllSuccesses.

Lemma datas_of_data (ds : list record) (tail : list event) :
  datas (map data ds ++ tail) = ds ++ datas tail.
Proof.
  induction ds as [|[k v] ds IH]; [reflexivity|].
  change (datas (map data ((k, v) :: ds) ++ tail)) with ((k, v) :: datas (map data ds ++ tail)).
  now rewrite IH.
Qed.

Lemma events_of_emitted (recs : list record) :
  events_of (flat_map (emit all_handlers) recs ++ fire (onend all_handlers) Onend)
  = map data recs ++ [Onend].
Proof.
  induction recs as [|rc recs IH]; [reflexivity|].
  cbn [flat_map map app emit all_handlers ondata fire events_of]. now rewrite <- IH.
Qed.

Lemma capped_prefix (limit : jsval) (recs : list record) :
  exists n, capped limit recs = firstn n recs.
Proof.
  unfold capped. destruct limit as [| |b|N| |str];
    try (exists (List.length recs); now rewrite firstn_all).
  destruct (1 <=? N)%Z; [now exists (Z.to_nat N)|].
  exists (List.length recs). now rewrite firstn_all.
Qed.

(** X13.  A limit that is at least the number of records of the range, or
    negative, cuts nothing: when the engine answers every request with
    success the stream hands every record of the range to [ondata], then
    calls [onend] once. *)
Theorem read_limit_beyond_the_range
        (StringToNumber : string -> option Z) (self : Indexed) (t : table)
        (opts : options) (range : option key_range) (N : Z) (hook_set : bool) :
  db_transaction (_db self) (_loc self) = inr t ->
  eval_range (getRange opts) = inr range ->
  ordered t = true ->
  o_limit opts = JNum N ->
  let recs := cursor_records t range (truthy (o_reverse opts)) in
  (N < 0 \/ Z.of_nat (List.length recs) <= N)%Z ->
  exists s,
    read self opts = Resolved s
    /\ events_of (snd (run StringToNumber all_handlers hook_set
                           (repeat Success (2 * List.length recs + 1)) s))
       = map data recs ++ [Onend].
Proof.
  intros Htx Hr Ho Hlim recs HN.
  destruct (read_stream self opts t range Htx Hr Ho)
    as (s & Hread & Hst & Hl & Hc & Hph & _ & _).
  exists s. split; [exact Hread|].
  rewrite (run_capped StringToNumber all_handlers hook_set recs s Hc);
    [ | right; exists N; congruence | exact Hph
      | rewrite Hst; apply cursor_records_found, Ho ].
  rewrite events_of_emitted, Hl, Hlim. unfold capped.
  destruct (1 <=? N)%Z eqn:Hpos; [|reflexivity].
  apply Z.leb_le in Hpos. now rewrite firstn_all2 by lia.
Qed.

Lemma read_limit_beyond_the_range_witness :
  exists s,
    read (handle "test" four_rows) (limit_only 4) = Resolved s
    /\ events_of (snd (run (decimal 0) all_handlers false (repeat Success 9) s))
       = [Ondata (JStr "a") (JNum 1); Ondata (JStr "b") (JNum 2);
          Ondata (JStr "c") (JNum 3); Ondata (JStr "d") (JNum 4); Onend].
Proof.
  apply (read_limit_beyond_the_range (decimal 0) (handle "test" four_rows) four_rows
           (limit_only 4) None 4%Z false); try reflexivity.
  right. vm_compute. discriminate.
Defined.

(** ** readAll over a stream that ends *)

Lemma settle_datas (ds : list record) (p : option resolution) :
  fold_left settle (map data ds) p = p.
Proof.
  revert p. induction ds as [|rc ds IH]; intros p; [reflexivity|]. exact (IH p).
Qed.

Lemma gather_hook (hook_set : bool) (t : list effect) :
  forall g : gathering,
    g_hook (fold_left (gather hook_set) t g) = g_hook g ++ flat_map (reported hook_set) t.
Proof.
  induction t as [|x t IH]; intros g; simpl; [now rewrite app_nil_r|].
  rewrite IH. destruct x as [e|[k v|e|]]; simpl; rewrite <- ?app_assoc; reflexivity.
Qed.

(** What [readAll] resolves with when the stream ends after pairs with
    distinct keys. *)
Lemma readAll_of_ended_stream
      (StringToNumber : string -> option Z) (self : Indexed) (opts : options)
      (hook_set : bool) (os : list outcome) (s : stream) (ds : list record) :
  read self opts = Resolved s ->
  events_of (snd (run StringToNumber all_handlers hook_set os s)) = map data ds ++ [Onend] ->
  NoDup (map fst ds) ->
  settled (readAll StringToNumber self opts hook_set os) = Resolved (Rows ds).
Proof.
  intros Hread Hev Hnd. unfold readAll. rewrite Hread. cbn [settled].
  destruct (gather_fold hook_set (snd (run StringToNumber all_handlers hook_set os s))
              {| g_rows := []; g_resolved := None; g_hook := [] |}) as [E1 E2].
  rewrite E1, E2, Hev. cbn [g_rows g_resolved].
  rewrite fold_left_app, settle_datas, datas_of_data, app_nil_r. simpl.
  fold (rows_of ds). now rewrite (rows_of_distinct ds Hnd).
Qed.

(** X14.  When the engine answers every request with success, [readAll]
    resolves [{data: rows}] where [rows] holds the records of the range in
    cursor order, key by key: the first [N] of them under a limit
    [N >= 1], all of them under a falsy or non-positive limit. *)
Theorem readAll_returns_the_records_of_the_range
        (StringToNumber : string -> option Z) (self : Indexed) (t : table)
        (opts : options) (range : option key_range) (hook_set : bool) :
  db_transaction (_db self) (_loc self) = inr t ->
  eval_range (getRange opts) = inr range ->
  ordered t = true ->
  truthy (o_limit opts) = false \/ (exists N, o_limit opts = JNum N) ->
  let recs := cursor_records t range (truthy (o_reverse opts)) in
  settled (readAll StringToNumber self opts hook_set
                   (repeat Success (2 * List.length recs + 1)))
  = Resolved (Rows (capped (o_limit opts) recs)).
Proof.
  intros Htx Hr Ho Hlim recs.
  destruct (read_stream self opts t range Htx Hr Ho)
    as (s & Hread & Hst & Hl & Hc & Hph & _ & _).
  apply (readAll_of_ended_stream StringToNumber self opts hook_set _ s _ Hread).
  - rewrite (run_capped StringToNumber all_handlers hook_set recs s Hc);
      [ | now rewrite Hl | exact Hph | rewrite Hst; apply cursor_records_found, Ho ].
    now rewrite events_of_emitted, Hl.
  - destruct (capped_prefix (o_limit opts) recs) as [n ->].
    rewrite <- firstn_map. apply firstn_distinct.
    unfold recs. rewrite <- cursor_keys_records. now apply cursor_keys_distinct.
Qed.

Lemma readAll_returns_the_records_of_the_range_witness :
  settled (readAll (decimal 0) (handle "test" four_rows)
                   {| o_lt := JUndefined; o_lte := JUndefined; o_gt := JUndefined;
                      o_gte := JStr "b"; o_limit := JNum 2; o_reverse := JNum 1 |}
                   false (repeat Success 7))
  = Resolved (Rows [(JStr "d", JNum 4); (JStr "c", JNum 3)]).
Proof.
  apply (readAll_returns_the_records_of_the_range (decimal 0) (handle "test" four_rows)
           four_rows
           {| o_lt := JUndefined; o_lte := JUndefined; o_gt := JUndefined;
              o_gte := JStr "b"; o_limit := JNum 2; o_reverse := JNum 1 |}
           (Some {| kr_lower := Some (JStr "b"); kr_upper := None;
                    kr_lowerOpen := false; kr_upperOpen := true |}) false);
    try reflexivity.
  right. now exists 2%Z.
Defined.

(** X15.  [reverse] turns the stream round: when the engine answers every
    request with success, a [read] with a truthy [reverse] hands to
    [ondata] the records of the range from the greatest key down, the
    first [N] of these under a limit [N >= 1], where the same [read]
    without [reverse] hands them over from the least key up. *)
Theorem read_reverse_streams_backwards
        (StringToNumber : string -> option Z) (self : Indexed) (t : table)
        (opts : options) (range : option key_range) (hook_set : bool) :
  db_transaction (_db self) (_loc self) = inr t ->
  eval_range (getRange opts) = inr range ->
  ordered t = true ->
  truthy (o_limit opts) = false \/ (exists N, o_limit opts = JNum N) ->
  truthy (o_reverse opts) = true ->
  let recs := filter (fun rc => includes range (fst rc)) t in
  let answers := repeat Success (2 * List.length recs + 1) in
  exists s s',
    read self opts = Resolved s
    /\ read self (forward opts) = Resolved s'
    /\ datas (events_of (snd (run StringToNumber all_handlers hook_set answers s)))
       = capped (o_limit opts) (rev recs)
    /\ datas (events_of (snd (run StringToNumber all_handlers hook_set answers s')))
       = capped (o_limit opts) recs.
Proof.
  intros Htx Hr Ho Hlim Hrev recs answers.
  assert (Hr' : eval_range (getRange (forward opts)) = inr range) by exact Hr.
  destruct (read_stream self opts t range Htx Hr Ho)
    as (s & Hread & Hst & Hl & Hc & Hph & _ & _).
  destruct (read_stream self (forward opts) t range Htx Hr' Ho)
    as (s' & Hread' & Hst' & Hl' & Hc' & Hph' & _ & _).
  exists s, s'. split; [exact Hread|]. split; [exact Hread'|].
  pose proof (cursor_records_found t range true Ho) as Hf.
  pose proof (cursor_records_found t range false Ho) as Hf'.
  rewrite Hrev in Hph. cbn [forward o_reverse o_limit truthy] in Hph', Hl'.
  unfold cursor_records in Hph, Hph', Hf, Hf'. fold recs in Hph, Hph', Hf, Hf'.
  split.
  - unfold answers. rewrite <- (length_rev recs).
    rewrite (run_capped StringToNumber all_handlers hook_set (rev recs) s Hc);
      [ | now rewrite Hl | exact Hph | now rewrite Hst ].
    now rewrite events_of_emitted, datas_of_data, app_nil_r, Hl.
  - unfold answers.
    rewrite (run_capped StringToNumber all_handlers hook_set recs s' Hc');
      [ | now rewrite Hl' | exact Hph' | now rewrite Hst' ].
    now rewrite events_of_emitted, datas_of_data, app_nil_r, Hl'.
Qed.

Lemma read_reverse_streams_backwards_witness :
  let o := {| o_lt := JUndefined; o_lte := JUndefined; o_gt := JUndefined;
              o_gte := JUndefined; o_limit := JNum 3; o_reverse := JBool true |} in
  exists s s',
    read (handle "test" four_rows) o = Resolved s
    /\ read (handle "test" four_rows) (forward o) = Resolved s'
    /\ datas (events_of (snd (run (decimal 0) all_handlers false (repeat Success 9) s)))
       = [(JStr "d", JNum 4); (JStr "c", JNum 3); (JStr "b", JNum 2)]
    /\ datas (events_of (snd (run (decimal 0) all_handlers false (repeat Success 9) s')))
       = [(JStr "a", JNum 1); (JStr "b", JNum 2); (JStr "c", JNum 3)].
Proof.
  apply (read_reverse_streams_backwards (decimal 0) (handle "test" four_rows) four_rows
           {| o_lt := JUndefined; o_lte := JUndefined; o_gt := JUndefined;
              o_gte := JUndefined; o_limit := JNum 3; o_reverse := JBool true |}
           None false); try reflexivity.
  right. now exists 3%Z.
Defined.

(** ** Streams that fail *)

Lemma errors_of_app (a b : list event) : errors_of (a ++ b) = errors_of a ++ errors_of b.
Proof.
  induction a as [|[k v|e|] a IH]; simpl; auto. now rewrite IH.
Qed.

Lemma orderly_errors (evs : list event) (e : error) :
  orderly evs = true -> In (Onerror e) evs -> errors_of evs = [e].
Proof.
  induction evs as [|ev rest IH]; simpl; [tauto|].
  destruct ev as [k v|e'|]; simpl.
  - intros Ho [H|H]; [discriminate|auto].
  - destruct rest; [|discriminate]. intros _ [H|[]]. now injection H as ->.
  - destruct rest; [|discriminate]. intros _ [H|[]]. discriminate.
Qed.

(** With the callbacks of [readAll] attached, each error of the stream is
    reported to the hook by [read] and again by [readAll]. *)
Lemma run_reported (StringToNumber : string -> option Z) (hook_set : bool)
      (os : list outcome) :
  forall s : stream,
    flat_map (reported hook_set) (snd (run StringToNumber all_handlers hook_set os s))
    = flat_map (fun e => hook hook_set e ++ hook hook_set e)
               (errors_of (events_of (snd (run StringToNumber all_handlers hook_set os s)))).
Proof.
  induction os as [|o os IH]; intros s; [reflexivity|].
  cbn [run].
  assert (Hstep :
    flat_map (reported hook_set) (snd (deliver StringToNumber all_handlers hook_set o s))
    = flat_map (fun e => hook hook_set e ++ hook hook_set e)
        (errors_of (events_of (snd (deliver StringToNumber all_handlers hook_set o s))))).
  { unfold deliver.
    destruct (s_phase s) as [[|k rest]|k rest|]; destruct o as [|e];
      try reflexivity; try (now destruct hook_set).
    destruct (store_get k (s_store s)) as [[key value]|]; [|reflexivity].
    destruct (truthy (s_limit s));
      [destruct (at_limit StringToNumber (s_limit s) (s_count s))|]; reflexivity. }
  specialize (IH (fst (deliver StringToNumber all_handlers hook_set o s))).
  destruct (deliver StringToNumber all_handlers hook_set o s) as [s1 t1].
  cbn [fst snd] in *. destruct (run StringToNumber all_handlers hook_set os s1) as [s2 t2].
  cbn [snd] in *.
  now rewrite flat_map_app, events_of_app, errors_of_app, flat_map_app, Hstep, IH.
Qed.

(** X16.  An error of the stream reaches the hook twice through
    [readAll]: with [Indexed.onerror] set, once [onerror] has fired with
    [e] the hook has been called with [e] by [read] and once more by the
    callback of [readAll], and by nothing else. *)
Theorem readAll_reports_a_stream_error_twice
        (StringToNumber : string -> option Z) (self : Indexed) (opts : options)
        (os : list outcome) (s : stream) (e : error) :
  read self opts = Resolved s ->
  In (Onerror e) (events_of (snd (run StringToNumber all_handlers true os s))) ->
  hook_calls (readAll StringToNumber self opts true os) = [e; e].
Proof.
  intros Hread Hin. unfold readAll. rewrite Hread. cbn [hook_calls].
  rewrite gather_hook, run_reported. cbn [g_hook app].
  destruct (run_orderly StringToNumber all_handlers true os s) as [Ho _].
  now rewrite (orderly_errors _ e Ho Hin).
Qed.

Lemma readAll_reports_a_stream_error_twice_witness :
  hook_calls (readAll (decimal 0) (handle "test" four_rows) no_options true
                      [Success; Success; Success; Failure (EngineError 5)])
  = [EngineError 5; EngineError 5].
Proof.
  apply (readAll_reports_a_stream_error_twice (decimal 0) (handle "test" four_rows)
           no_options [Success; Success; Success; Failure (EngineError 5)] _
           (EngineError 5) eq_refl).
  vm_compute. tauto.
Defined.

Section Failing.

Variable StringToNumber : string -> option Z.
Variable h : handlers.
Variable hook_set : bool.

Local Abbreviation exec := (run StringToNumber h hook_set).

(** Without a limit, a failure after [j] successful answers ends the
    stream: the records of the [j / 2] positions passed, then the error. *)
Lemma run_fails_at (e : error) (more : list outcome) (recs : list record) :
  forall (j : nat) (s : stream),
    truthy (s_limit s) = false ->
    s_phase s = CursorPending (map fst recs) ->
    Forall (fun rc => store_get (fst rc) (s_store s) = Some rc) recs ->
    j <= 2 * List.length recs ->
    exec (repeat Success j ++ Failure e :: more) s
    = (move s (s_count s) Quiet,
       flat_map (emit h) (firstn (Nat.div2 j) recs)
       ++ global hook_set e ++ fire (onerror h) (Onerror e)).
Proof.
  assert (Hstop : forall s' : stream,
            s_phase s' = Quiet -> exec more s' = (s', [])).
  { intros s' Hq. now apply run_quiet. }
  induction recs as [|[k v] recs IH]; intros j s Hlim Hph Hfound Hj.
  - destruct j; [|simpl in Hj; lia].
    cbn [repeat app run]. unfold deliver. rewrite Hph.
    rewrite Hstop by reflexivity. cbn [firstn Nat.div2 flat_map app]. now rewrite app_nil_r.
  - inversion Hfound as [|rc l Hk Hrest]; subst. simpl in Hk.
    destruct j as [|[|j]].
    + cbn [repeat app run]. unfold deliver. rewrite Hph.
      rewrite Hstop by reflexivity. cbn [firstn Nat.div2 flat_map app].
      now rewrite app_nil_r.
    + cbn [repeat app run]. unfold deliver at 1. rewrite Hph. cbn [map fst].
      unfold deliver at 1. cbn [s_phase move s_count].
      rewrite Hstop by reflexivity. rewrite move_move.
      cbn [firstn Nat.div2 flat_map app]. now rewrite app_nil_r.
    + cbn [repeat app run]. unfold deliver at 1. rewrite Hph. cbn [map fst].
      unfold deliver at 1. cbn [s_phase move s_store s_limit s_count].
      rewrite Hk, Hlim.
      rewrite (IH j (move (move s (s_count s) (LookupPending k (map fst recs)))
                          (s_count s) (CursorPending (map fst recs))));
        auto; [|cbn [List.length] in Hj; lia].
      cbn [firstn Nat.div2 flat_map app move s_count]. now rewrite <- app_assoc.
Qed.

End Failing.

Lemma events_of_failed (recs : list record) (hook_set : bool) (e : error) :
  events_of (flat_map (emit all_handlers) recs
             ++ global hook_set e ++ fire (onerror all_handlers) (Onerror e))
  = map data recs ++ [Onerror e].
Proof.
  induction recs as [|rc recs IH].
  - now destruct hook_set.
  - cbn [flat_map map app emit all_handlers ondata fire events_of]. now rewrite <- IH.
Qed.

(** X17.  Without a limit, a failure of the engine at any point of the
    stream, after [j] successful answers, ends it: [ondata] has had the
    records of the [j / 2] positions passed, [onerror] fires once with the
    error, [onend] never, and nothing the engine answers later shows;
    [readAll] resolves [{err}] and the rows gathered so far are not
    returned. *)
Theorem read_failure_ends_the_stream
        (StringToNumber : string -> option Z) (self : Indexed) (t : table)
        (opts : options) (range : option key_range) (hook_set : bool)
        (j : nat) (e : error) (more : list outcome) :
  db_transaction (_db self) (_loc self) = inr t ->
  eval_range (getRange opts) = inr range ->
  ordered t = true ->
  truthy (o_limit opts) = false ->
  let recs := cursor_records t range (truthy (o_reverse opts)) in
  j <= 2 * List.length recs ->
  let answers := repeat Success j ++ Failure e :: more in
  exists s,
    read self opts = Resolved s
    /\ events_of (snd (run StringToNumber all_handlers hook_set answers s))
       = map data (firstn (Nat.div2 j) recs) ++ [Onerror e]
    /\ settled (readAll StringToNumber self opts hook_set answers) = Resolved (Err e).
Proof.
  intros Htx Hr Ho Hlim recs Hj answers.
  destruct (read_stream self opts t range Htx Hr Ho)
    as (s & Hread & Hst & Hl & Hc & Hph & _ & _).
  exists s. split; [exact Hread|].
  assert (Hev : events_of (snd (run StringToNumber all_handlers hook_set answers s))
                = map data (firstn (Nat.div2 j) recs) ++ [Onerror e]).
  { unfold answers.
    rewrite (run_fails_at StringToNumber all_handlers hook_set e more recs j s);
      [ | now rewrite Hl | exact Hph | rewrite Hst; apply cursor_records_found, Ho
        | exact Hj ].
    cbn [snd]. apply events_of_failed. }
  split; [exact Hev|].
  unfold readAll. rewrite Hread. cbn [settled].
  destruct (gather_fold hook_set (snd (run StringToNumber all_handlers hook_set answers s))
              {| g_rows := []; g_resolved := None; g_hook := [] |}) as [_ E2].
  rewrite E2, Hev. cbn [g_resolved].
  now rewrite fold_left_app, settle_datas.
Qed.

Lemma read_failure_ends_the_stream_witness :
  exists s,
    read (handle "test" four_rows) no_options = Resolved s
    /\ events_of (snd (run (decimal 0) all_handlers true
                           (repeat Success 5 ++ Failure (EngineError 2) :: [Success]) s))
       = [Ondata (JStr "a") (JNum 1); Ondata (JStr "b") (JNum 2);
          Onerror (EngineError 2)]
    /\ settled (readAll (decimal 0) (handle "test" four_rows) no_options true
                        (repeat Success 5 ++ Failure (EngineError 2) :: [Success]))
       = Resolved (Err (EngineError 2)).
Proof.
  apply (read_failure_ends_the_stream (decimal 0) (handle "test" four_rows) four_rows
           no_options None true 5 (EngineError 2) [Success]); try reflexivity.
  vm_compute. lia.
Defined.

(** ** open *)

(** X18.  [Indexed.open(loc)] on a name the engine does not hold resolves
    with a handle on one empty store: [count] resolves [{data: 0}], [get]
    of a valid key resolves [{err: NotFound}] and [has] [{data: false}],
    and [put] followed by [get] returns the value.  When the request to
    open fails, the promise of [open] neither resolves nor rejects. *)
Theorem open_creates_an_empty_store (loc : string) (key value : jsval) (hook_set : bool)
        (e : error) :
  valid_key key = true ->
  exists self,
    open loc Created = Resolved self
    /\ store_at self = Some []
    /\ settled (count self hook_set Success) = Resolved (Data (JNum 0))
    /\ settled (get self key hook_set Success) = Resolved (Err NotFound)
    /\ settled (has self key hook_set Success) = Resolved (Data (JBool false))
    /\ settled (get (after (put self key value hook_set Success)) key hook_set Success)
       = Resolved (Data value)
    /\ open loc (OpenFailed e) = Pending.
Proof.
  intros Hk. exists (handle loc []).
  assert (Htx : db_transaction (_db (handle loc [])) (_loc (handle loc [])) = inr []).
  { unfold db_transaction, handle. simpl. now rewrite String.eqb_refl. }
  repeat split.
  - unfold store_at. now rewrite Htx.
  - now rewrite (count_settled _ _ hook_set Htx).
  - now rewrite (get_settled _ _ key hook_set Success Htx Hk).
  - now rewrite (has_settled _ _ key hook_set Success Htx Hk).
  - rewrite (put_success _ _ key value hook_set Htx Hk). cbn [after].
    rewrite (get_settled _ _ key hook_set Success
               (db_transaction_with_store _ _ _ Htx) Hk).
    now rewrite (store_get_put_same key value [] Hk eq_refl).
Qed.

Lemma open_creates_an_empty_store_witness :
  exists self,
    open "test2" Created = Resolved self
    /\ store_at self = Some []
    /\ settled (count self false Success) = Resolved (Data (JNum 0))
    /\ settled (get self (JStr "foo") false Success) = Resolved (Err NotFound)
    /\ settled (has self (JStr "foo") false Success) = Resolved (Data (JBool false))
    /\ settled (get (after (put self (JStr "foo") (JNum 100) false Success))
                    (JStr "foo") false Success)
       = Resolved (Data (JNum 100))
    /\ open "test2" (OpenFailed (EngineError 1)) = Pending.
Proof.
  apply (open_creates_an_empty_store "test2" (JStr "foo") (JNum 100) false (EngineError 1)).
  reflexivity.
Defined.
